(** * Panther: the request-dispatch core of [panther/main.py]

    A shallow embedding of the [Panther] class of [src/panther/main.py]:
    route collection ([collect_urls]), route resolution ([find_endpoint]),
    the exception translator ([handle_exceptions]) and the per-request
    dispatcher ([run]) with its before/after middleware passes.

    Python values are embedded as the inductive [pyval]; the process-wide
    [config] object is an explicit [state] record that is threaded through
    every call; exceptions are an explicit [result]; calls that cross the
    boundary of the modelled code (middleware hooks, the endpoint, the
    logger, [http_response]) are recorded in an event trace. *)

From stdpp Require Import gmap strings list fin_maps.

Set Warnings "-register-all".

Local Open Scope Z_scope.
Local Open Scope string_scope.
Local Open Scope list_scope.

(** ** Python values *)

(** The JSON-like values that travel as exception details and response
    data. *)
Inductive pyval : Type :=
  | PNone
  | PBool (b : bool)
  | PInt (z : Z)
  | PStr (s : string)
  | PList (l : list pyval)
  | PDict (d : list (string * pyval)).

(** [isinstance(v, dict)] *)
Definition isinstance_dict (v : pyval) : bool :=
  match v with
  | PDict _ => true
  | _ => false
  end.

(** Modelled from the spec: the module [panther.status] is not part of the
    sources; section 6 of the specification gives the two status codes the
    dispatcher itself produces, 404 for a route miss and 500 for an
    uncaught error. *)
Module status.
Definition HTTP_404_NOT_FOUND : Z := 404.
Definition HTTP_500_INTERNAL_SERVER_ERROR : Z := 500.
End status.

(** [panther.request.Request]: what the dispatcher reads is [path]. *)
Module Request.
Record t : Type := mk { path : string; method : string; body : pyval }.
End Request.

(** [panther.response.Response(data=..., status_code=...)] *)
Module Response.
Record t : Type := mk { data : pyval; status_code : Z }.
End Response.

(** [panther.exceptions.APIException]: carries [detail] and [status_code]. *)
Module APIException.
Record t : Type := mk { detail : pyval; status_code : Z }.
End APIException.

(** What a Python call can raise: an [APIException], caught by
    [except APIException]; any other [Exception], caught by
    [except Exception]; or a [BaseException] that is not an [Exception]
    ([asyncio.CancelledError], [KeyboardInterrupt], [SystemExit]), which
    neither clause catches. Of the last two only the message is kept. *)
Inductive exn : Type :=
  | ApiExc (e : APIException.t)
  | OtherExc (msg : string)
  | BaseExc (msg : string).

Inductive result (A : Type) : Type :=
  | Ok (a : A)
  | Raise (e : exn).
Arguments Ok {A} a.
Arguments Raise {A} e.

(** ** Observable events *)

Inductive level : Type := ERROR | CRITICAL.

(** The calls that leave the modelled code, in the order they are made.
    [EvHttpResponse] records the keyword arguments as they are passed:
    [None] stands for an argument that the call site leaves out. *)
Inductive event : Type :=
  | EvMonitoringBefore (request : Request.t)
  | EvBefore (name : string) (request : Request.t)
  | EvEndpoint (request : Request.t)
  | EvAfter (name : string) (response : Response.t)
  | EvLog (lvl : level) (msg : string)
  | EvHttpResponse (status_code : Z) (body : option pyval)
                   (exception : option bool).

(** ** Exception translator, [Panther.handle_exceptions] (lines 97-102) *)

Definition handle_exceptions (e : APIException.t) : Response.t :=
  Response.mk
    (if isinstance_dict (APIException.detail e)
     then APIException.detail e
     else PDict [("detail", APIException.detail e)])
    (APIException.status_code e).

(** ** The monad of the dispatcher: state, exceptions, event trace *)

Section Monad.

Variable S : Type.

Definition M (A : Type) : Type := S -> result A * S * list event.

Definition ret {A} (a : A) : M A := fun st => (Ok a, st, []).

Definition bind {A B} (m : M A) (f : A -> M B) : M B :=
  fun st =>
    match m st with
    | (Ok a, st1, tr1) =>
        match f a st1 with
        | (r, st2, tr2) => (r, st2, tr1 ++ tr2)
        end
    | (Raise e, st1, tr1) => (Raise e, st1, tr1)
    end.

Definition raise {A} (e : exn) : M A := fun st => (Raise e, st, []).

(** [try: m except ... as e: h e]; the handler starts from the state the
    body left behind. *)
Definition catch {A} (m : M A) (h : exn -> M A) : M A :=
  fun st =>
    match m st with
    | (Ok a, st1, tr1) => (Ok a, st1, tr1)
    | (Raise e, st1, tr1) =>
        match h e st1 with
        | (r, st2, tr2) => (r, st2, tr1 ++ tr2)
        end
    end.

Definition emit (ev : event) : M unit := fun st => (Ok tt, st, [ev]).

Definition gets {A} (f : S -> A) : M A := fun st => (Ok (f st), st, []).

Definition modify (f : S -> S) : M unit := fun st => (Ok tt, f st, []).

End Monad.

Arguments ret {S A} a.
Arguments bind {S A B} m f.
Arguments raise {S A} e.
Arguments catch {S A} m h.
Arguments emit {S} ev.
Arguments gets {S A} f.
Arguments modify {S} f.

Declare Scope panther_scope.
Delimit Scope panther_scope with panther.
Notation "x <- c ;; k" := (bind c (fun x => k))
  (at level 100, c at next level, right associativity) : panther_scope.
Notation "c ;;; k" := (bind c (fun _ => k))
  (at level 100, right associativity) : panther_scope.
Local Open Scope panther_scope.

(** [logger.error(msg)], [logger.critical(msg)] *)
Definition logger_error {S} (msg : string) : M S unit :=
  emit (EvLog ERROR msg).
Definition logger_critical {S} (msg : string) : M S unit :=
  emit (EvLog CRITICAL msg).

(** [http_response(send, status_code=.., monitoring=.., body=..,
    exception=..)], the response emitter of [panther.utils]: a boundary
    call, recorded with the [status_code], [body] and [exception] it is
    given ([send] and [monitoring] are the same objects at every call of
    one request). *)
Definition http_response {S} (status_code : Z) (body : option pyval)
    (exception : option bool) : M S unit :=
  emit (EvHttpResponse status_code body exception).

Section Dispatch.

(** Everything a hook or an endpoint can read and change besides its
    argument (databases, caches, counters) is a value of [World]. The
    hooks do not touch [config]: only the dispatcher does. A request is
    served in one piece: no other request runs while one of its hooks or
    its endpoint is awaited, so that [config['middlewares']] is not
    reversed under it. Hooks and endpoints return the objects they are
    meant to return, a [Request] or a [Response]. *)
Variable World : Type.

(** An instance of a [BaseMiddleware] subclass. [name] stands for the
    identity of the object. *)
Record middleware : Type := Middleware {
  name : string;
  before : Request.t -> World -> result Request.t * World;
  after : Response.t -> World -> result Response.t * World
}.

(** What a value of the [urls] dictionary can be: [None], [...], a
    callable endpoint, or a nested dictionary of the same shape. A
    dictionary is the sequence of its items, in iteration order. *)
Inductive endpoint : Type :=
  | EpNone
  | EpEllipsis
  | EpHandler (h : Request.t -> World -> result Response.t * World)
  | EpDict (d : urls_dict)
with urls_dict : Type :=
  | UNil
  | UCons (url : string) (ep : endpoint) (rest : urls_dict).

Fixpoint items (d : urls_dict) : list (string * endpoint) :=
  match d with
  | UNil => []
  | UCons url ep rest => (url, ep) :: items rest
  end.

(** [isinstance(endpoint, dict)] *)
Definition isinstance_EpDict (ep : endpoint) : bool :=
  match ep with EpDict _ => true | _ => false end.

#[global] Instance endpoint_inhabited : Inhabited endpoint := populate EpNone.

(** [config['middlewares']], [config['urls']], and the world. *)
Record state : Type := State {
  config_middlewares : list middleware;
  config_urls : gmap string endpoint;
  world : World
}.

(** Run a hook or an endpoint on the world. *)
Definition call {A} (f : World -> result A * World) : M state A :=
  fun st =>
    match f (world st) with
    | (r, w) => (r, State (config_middlewares st) (config_urls st) w, [])
    end.

(** *** [Panther.collect_urls] (lines 167-180)

    The loop over [urls.items()]; [config['urls'][k] = endpoint] is
    [set_url]. The Python function returns its argument [urls], which
    its only caller (line 131) drops. *)

Definition set_url (k : string) (ep : endpoint) : M state unit :=
  modify (fun st =>
    State (config_middlewares st) (<[k := ep]> (config_urls st)) (world st)).

Fixpoint collect_urls (pre_url : string) (urls : urls_dict) {struct urls}
    : M state unit :=
  match urls with
  | UNil => ret tt
  | UCons url endpoint rest =>
      (match endpoint with
       | EpEllipsis =>
           logger_error ("URL Can't Point To Ellipsis. ('" +:+ pre_url
                         +:+ url +:+ "' -> ...)")
       | _ => ret tt
       end) ;;;
      (match endpoint with
       | EpNone =>
           logger_error ("URL Can't Point To None. ('" +:+ pre_url
                         +:+ url +:+ "' -> None)")
       | _ => ret tt
       end) ;;;
      (match endpoint with
       | EpDict d => collect_urls (pre_url +:+ "/" +:+ url) d
       | _ => set_url (pre_url +:+ url) endpoint
       end) ;;;
      collect_urls pre_url rest
  end.

(** *** [Panther.find_endpoint] (lines 199-203)

    The loop runs over the keys of [config['urls']]; [urls !!! url] is
    [config['urls'][url]], read at a key of the dictionary. Falling off
    the end of the loop returns [None]. *)

Fixpoint find_endpoint_loop (urls : gmap string endpoint)
    (keys : list string) (path : string) : endpoint :=
  match keys with
  | [] => EpNone
  | url :: keys' =>
      if String.eqb path url then urls !!! url
      else find_endpoint_loop urls keys' path
  end.

Definition find_endpoint (urls : gmap string endpoint) (path : string)
    : endpoint :=
  find_endpoint_loop urls (map_to_list urls).*1 path.

(** [endpoint is None] *)
Definition is_EpNone (ep : endpoint) : bool :=
  match ep with EpNone => true | _ => false end.

(** *** [Panther.run] (lines 44-95) *)

(** [await middleware.before(request=request)] *)
Definition call_before (m : middleware) (request : Request.t)
    : M state Request.t :=
  emit (EvBefore (name m) request) ;;; call (before m request).

(** [await middleware.after(response=response)] *)
Definition call_after (m : middleware) (response : Response.t)
    : M state Response.t :=
  emit (EvAfter (name m) response) ;;; call (after m response).

(** [await endpoint(request=request)]: calling a value that is not
    callable raises [TypeError]. *)
Definition call_endpoint (ep : endpoint) (request : Request.t)
    : M state Response.t :=
  match ep with
  | EpHandler h => emit (EvEndpoint request) ;;; call (h request)
  | EpEllipsis => raise (OtherExc "'ellipsis' object is not callable")
  | EpNone => raise (OtherExc "'NoneType' object is not callable")
  | EpDict _ => raise (OtherExc "'dict' object is not callable")
  end.

(** Lines 64-65: [for middleware in config['middlewares']:
    request = await middleware.before(request=request)] *)
Fixpoint before_pass (mws : list middleware) (request : Request.t)
    : M state Request.t :=
  match mws with
  | [] => ret request
  | middleware :: rest =>
      request' <- call_before middleware request ;;
      before_pass rest request'
  end.

(** Lines 87-91: the loop of the after-pass, with its own [try]. *)
Fixpoint after_pass (mws : list middleware) (response : Response.t)
    : M state Response.t :=
  match mws with
  | [] => ret response
  | middleware :: rest =>
      response' <-
        catch (call_after middleware response)
              (fun e => match e with
                        | ApiExc e => ret (handle_exceptions e)
                        | OtherExc msg => raise (OtherExc msg)
                        | BaseExc msg => raise (BaseExc msg)
                        end) ;;
      after_pass rest response'
  end.

(** Line 86: [config['middlewares'].reverse()], in place. *)
Definition reverse_middlewares : M state unit :=
  modify (fun st =>
    State (rev (config_middlewares st)) (config_urls st) (world st)).

(** How the [try] statement of lines 62-79 is left: with a [response]
    to post-process, or by the [return] of line 74. *)
Inductive flow : Type :=
  | Continue (response : Response.t)
  | Return.

(** Lines 63-69: the body of the [try] statement. *)
Definition try_body (endpoint : endpoint) (request : Request.t)
    : M state Response.t :=
  mws <- gets config_middlewares ;;
  request' <- before_pass mws request ;;
  call_endpoint endpoint request'.

(** Lines 84-95: the after-pass and the emission of its response. *)
Definition post_process (response : Response.t) : M state unit :=
  reverse_middlewares ;;;
  mws <- gets config_middlewares ;;
  response' <- after_pass mws response ;;
  http_response (Response.status_code response')
                (Some (Response.data response')) None.

Definition run (request : Request.t) : M state unit :=
  emit (EvMonitoringBefore request) ;;;
  urls <- gets config_urls ;;
  let endpoint := find_endpoint urls (Request.path request) in
  if is_EpNone endpoint then
    http_response status.HTTP_404_NOT_FOUND None (Some true)
  else
    fl <- catch
            (response <- try_body endpoint request ;;
             ret (Continue response))
            (fun e => match e with
                      | ApiExc e => ret (Continue (handle_exceptions e))
                      | OtherExc msg =>
                          logger_critical msg ;;;
                          http_response
                            status.HTTP_500_INTERNAL_SERVER_ERROR None
                            (Some true) ;;;
                          ret Return
                      | BaseExc msg => raise (BaseExc msg)
                      end) ;;
    match fl with
    | Return => ret tt
    | Continue response => post_process response
    end.

End Dispatch.

Arguments Middleware {World} name before after.
Arguments name {World} m.
Arguments before {World} m _ _.
Arguments after {World} m _ _.
Arguments EpNone {World}.
Arguments EpEllipsis {World}.
Arguments EpHandler {World} h.
Arguments EpDict {World} d.
Arguments UNil {World}.
Arguments UCons {World} url ep rest.
Arguments items {World} d.
Arguments isinstance_EpDict {World} ep.
Arguments is_EpNone {World} ep.
Arguments State {World} _ _ _.
Arguments config_middlewares {World} s.
Arguments config_urls {World} s.
Arguments world {World} s.
Arguments call {World A} f.
Arguments set_url {World} k ep.
Arguments collect_urls {World} pre_url urls.
Arguments find_endpoint_loop {World} urls keys path.
Arguments find_endpoint {World} urls path.
Arguments call_before {World} m request.
Arguments call_after {World} m response.
Arguments call_endpoint {World} ep request.
Arguments before_pass {World} mws request.
Arguments after_pass {World} mws response.
Arguments reverse_middlewares {World}.
Arguments try_body {World} endpoint request.
Arguments post_process {World} response.
Arguments run {World} request.

(** ** Start-up: [check_urls], [load_configs], [load_middlewares] *)

(** [s.find(sub)]: the index of the first occurrence of [sub] in [s];
    [None] stands for the [-1] of a string without occurrence. *)
Definition str_find (s sub : string) : option nat := String.index 0 sub s.

(** [s.split(sep)[0]] for a separator of one character: what comes
    before the first [sep], all of [s] when there is none. *)
Fixpoint split_head (sep : Ascii.ascii) (s : string) : string :=
  match s with
  | EmptyString => EmptyString
  | String c s' =>
      if Ascii.eqb c sep then EmptyString else String c (split_head sep s')
  end.

(** The character [':']. *)
Definition colon : Ascii.ascii := Ascii.ascii_of_nat 58.

(** [data[k]] on a dictionary of keyword arguments; [None] stands for the
    [KeyError] of a missing key. *)
Fixpoint getitem (data : list (string * pyval)) (k : string) : option pyval :=
  match data with
  | [] => None
  | (k', v) :: data' => if String.eqb k k' then Some v else getitem data' k
  end.

(** [type(v).__name__] *)
Definition type_name (v : pyval) : string :=
  match v with
  | PNone => "NoneType"
  | PBool _ => "bool"
  | PInt _ => "int"
  | PStr _ => "str"
  | PList _ => "list"
  | PDict _ => "dict"
  end.

(** A call that returns or raises without touching the state. *)
Definition lift {S A} (r : result A) : M S A := fun st => (r, st, []).

(** What [run_path] can raise, as far as [check_urls] tells the
    exceptions apart. *)
Inductive run_path_error : Type :=
  | FileNotFoundError
  | KeyError
  | OtherError (msg : string).

Section Startup.

Variable World : Type.

(** What [import_class(path)] returns: a class, of which
    [load_middlewares] uses its printed form, whether it is a subclass of
    [BaseMiddleware], and its constructor, called with keyword
    arguments. *)
Record middleware_class : Type := MiddlewareClass {
  class_repr : string;
  issubclass_BaseMiddleware : bool;
  instantiate : list (string * pyval) -> result (middleware World)
}.

(** [panther.utils.import_class], which is not part of the sources. *)
Variable import_class : string -> result middleware_class.

(** [run_path(str(self.base_dir / urls_path))], as a function of
    [urls_path]: the namespace of the file that was run, or the exception
    raised on the way. The values of the namespace are written as
    [endpoint]s: a dictionary, or something that is not one. *)
Inductive run_path_result : Type :=
  | RunPathRaises (e : run_path_error)
  | RunPathGlobals (globals : gmap string (endpoint World)).

Variable run_path : string -> run_path_result.

(** The entries of [self.settings] that the modelled functions read;
    [None] is a missing key (or, for [URLs], the value [None]). *)
Record settings : Type := Settings {
  URLs : option string;
  Middlewares : option (list (string * list (string * pyval)))
}.

(** *** [Panther.check_urls] (lines 148-165)

    [return logger.critical(...)] returns what [logger.critical]
    returns: [None]. *)
Definition check_urls {S} (s : settings) : M S (option (urls_dict World)) :=
  match URLs s with
  | None => logger_critical "configs.py Does Not Have 'URLs'" ;;; ret None
  | Some urls_path =>
      match run_path urls_path with
      | RunPathRaises FileNotFoundError =>
          logger_critical "Couldn't Open 'URLs' Address." ;;; ret None
      | RunPathRaises KeyError =>
          logger_critical "'URLs' Address Does Not Have 'urls'" ;;; ret None
      | RunPathRaises (OtherError msg) => raise (OtherExc msg)
      | RunPathGlobals globals =>
          match globals !! "urls" with
          | None =>
              logger_critical "'URLs' Address Does Not Have 'urls'" ;;;
              ret None
          | Some (EpDict urls_dict) => ret (Some urls_dict)
          | Some _ => logger_critical "'urls' Of URLs Is Not dict." ;;; ret None
          end
      end
  end.

(** *** [Panther.load_configs], lines 128-131

    [urls = self.check_urls() or {}]: [None] and the empty dictionary
    both give the empty dictionary. *)
Definition load_configs_urls (s : settings) : M (state World) unit :=
  urls <- check_urls s ;;
  collect_urls ""
    (match urls with
     | Some urls_dict => urls_dict
     | None => UNil
     end).

(** *** [Panther.load_middlewares] (lines 182-197)

    The state is [config['db_engine']]; [middlewares] is the list built
    so far. *)
Fixpoint load_middlewares_loop
    (entries : list (string * list (string * pyval)))
    (middlewares : list (middleware World))
    : M string (list (middleware World)) :=
  match entries with
  | [] => ret middlewares
  | (path, data) :: rest =>
      (match str_find path "panther.middlewares.db.Middleware" with
       | Some _ =>
           match getitem data "url" with
           | Some (PStr url) => modify (fun _ => split_head colon url)
           | Some v =>
               raise (OtherExc ("'" +:+ type_name v
                                +:+ "' object has no attribute 'split'"))
           | None => raise (OtherExc "'url'")
           end
       | None => ret tt
       end) ;;;
      Middleware <- lift (import_class path) ;;
      if issubclass_BaseMiddleware Middleware then
        middleware <- lift (instantiate Middleware data) ;;
        load_middlewares_loop rest (middlewares ++ [middleware])
      else
        logger_critical (class_repr Middleware
                         +:+ " is not a sub class of BaseMiddleware.") ;;;
        load_middlewares_loop rest middlewares
  end.

Definition load_middlewares (s : settings)
    : M string (list (middleware World)) :=
  load_middlewares_loop
    (match Middlewares s with Some entries => entries | None => [] end) [].

End Startup.

Arguments MiddlewareClass {World} class_repr issubclass_BaseMiddleware
  instantiate.
Arguments class_repr {World} m.
Arguments issubclass_BaseMiddleware {World} m.
Arguments instantiate {World} m _.
Arguments RunPathRaises {World} e.
Arguments RunPathGlobals {World} globals.
Arguments check_urls {World} run_path {S} s.
Arguments load_configs_urls {World} run_path s.
Arguments load_middlewares_loop {World} import_class entries middlewares.
Arguments load_middlewares {World} import_class s.

(** ** Observations

    What the properties below say about a run is read off its trace and
    its final state with the definitions of this part. *)

(** The kind of call an event records. *)
Inductive kind : Type :=
  KMonitoring | KBefore | KEndpoint | KAfter | KLog | KHttp.

Definition kind_of (ev : event) : kind :=
  match ev with
  | EvMonitoringBefore _ => KMonitoring
  | EvBefore _ _ => KBefore
  | EvEndpoint _ => KEndpoint
  | EvAfter _ _ => KAfter
  | EvLog _ _ => KLog
  | EvHttpResponse _ _ _ => KHttp
  end.

#[global] Instance kind_eq_dec : EqDecision kind.
Proof. solve_decision. Defined.

(** The middlewares whose [before] was called, in call order. *)
Fixpoint before_names (tr : list event) : list string :=
  match tr with
  | [] => []
  | EvBefore nm _ :: tr' => nm :: before_names tr'
  | _ :: tr' => before_names tr'
  end.

(** The middlewares whose [after] was called, in call order. *)
Fixpoint after_names (tr : list event) : list string :=
  match tr with
  | [] => []
  | EvAfter nm _ :: tr' => nm :: after_names tr'
  | _ :: tr' => after_names tr'
  end.

(** The calls of the response emitter. *)
Definition http_responses (tr : list event) : list event :=
  filter (fun ev => kind_of ev = KHttp) tr.

(** The emitter call of line 93: a body, and no exception flag. *)
Definition served_emission (ev : event) : bool :=
  match ev with
  | EvHttpResponse _ (Some _) None => true
  | _ => false
  end.

(** The trace ends in the emitter call of line 93. *)
Definition ends_served (tr : list event) : bool :=
  match last tr with
  | Some ev => served_emission ev
  | None => false
  end.

Section Observations.

Context {World : Type}.
Implicit Types (urls d : urls_dict World) (ep h : endpoint World).
Implicit Types (st : state World) (pre_url url : string).
Implicit Types (request : Request.t).

(** The assignments [config['urls'][k] = endpoint] that
    [collect_urls pre_url urls] performs, in the order it performs them. *)
Fixpoint url_assignments pre_url urls : list (string * endpoint World) :=
  match urls with
  | UNil => []
  | UCons url ep rest =>
      match ep with
      | EpDict d => url_assignments (pre_url +:+ "/" +:+ url) d
      | _ => [(pre_url +:+ url, ep)]
      end ++ url_assignments pre_url rest
  end.

Definition assign (table : gmap string (endpoint World))
    (kv : string * endpoint World) : gmap string (endpoint World) :=
  <[kv.1 := kv.2]> table.

(** A state that differs from [st] in the world only. *)
Definition with_world st (w : World) : state World :=
  State (config_middlewares st) (config_urls st) w.

(** The state after line 86. *)
Definition reversed st : state World :=
  State (rev (config_middlewares st)) (config_urls st) (world st).

(** A request is fully served when [run] ends in the emitter call of
    line 93, the one that is given a body and no exception flag: the
    request went through the after-pass. *)
Definition fully_served request st : bool :=
  ends_served (run request st).2.

End Observations.

(** *** Sequences of requests and nested route groups *)

Section MoreObservations.

Context {World : Type}.
Implicit Types (urls d : urls_dict World) (ep h : endpoint World).
Implicit Types (st : state World) (request : Request.t).

(** Requests served one after the other through the same [config]: each
    one starts from the state the one before left, whether that one
    returned or raised. *)
Fixpoint serve (requests : list Request.t) st : state World :=
  match requests with
  | [] => st
  | request :: rest => serve rest (run request st).1.2
  end.

(** Every request of the sequence is fully served. *)
Fixpoint all_served (requests : list Request.t) st : bool :=
  match requests with
  | [] => true
  | request :: rest =>
      fully_served request st && all_served rest (run request st).1.2
  end.

(** The prefix that the nested groups [g1, ..., gn] accumulate:
    ['/' + g1 + '/' + g2 + ... + '/' + gn]. *)
Fixpoint group_path (groups : list string) : string :=
  match groups with
  | [] => ""
  | g :: rest => "/" +:+ g +:+ group_path rest
  end.

(** [leaf_at urls groups u h]: [urls[g1][g2]...[gn][u]] is [h], and [h]
    is not a dictionary. *)
Inductive leaf_at : urls_dict World -> list string -> string
                    -> endpoint World -> Prop :=
  | leaf_here urls u h :
      (u, h) ∈ items urls -> isinstance_EpDict h = false ->
      leaf_at urls [] u h
  | leaf_in_group urls g d groups u h :
      (g, EpDict d) ∈ items urls -> leaf_at d groups u h ->
      leaf_at urls (g :: groups) u h.

(** [endpoint is None or endpoint is ...] *)
Definition is_placeholder ep : bool :=
  match ep with
  | EpNone | EpEllipsis => true
  | _ => false
  end.


End MoreObservations.

(** ** Sample middlewares, endpoints and requests

    The world of the samples is a counter of the hooks and endpoints that
    ran. *)

Module Samples.

Definition passthrough (nm : string) : middleware nat :=
  Middleware nm (fun request w => (Ok request, S w))
                (fun response w => (Ok response, S w)).

Definition A : middleware nat := passthrough "A".
Definition B : middleware nat := passthrough "B".
Definition C : middleware nat := passthrough "C".

Definition forbidden : APIException.t :=
  APIException.mk (PStr "forbidden") 403.

(** [before] raises an [APIException]. *)
Definition Deny : middleware nat :=
  Middleware "Deny" (fun _ w => (Raise (ApiExc forbidden), S w))
                    (fun response w => (Ok response, S w)).


(** [after] raises an exception that is not an [APIException]. *)
Definition AfterCrash : middleware nat :=
  Middleware "AfterCrash" (fun request w => (Ok request, S w))
    (fun _ w => (Raise (OtherExc "boom"), S w)).

(** [before] raises an exception that is not an [APIException]. *)
Definition BeforeCrash : middleware nat :=
  Middleware "BeforeCrash" (fun _ w => (Raise (OtherExc "boom"), S w))
    (fun response w => (Ok response, S w)).

Definition ok_response : Response.t :=
  Response.mk (PDict [("ok", PBool true)]) 200.

Definition ok_handler : endpoint nat :=
  EpHandler (fun _ w => (Ok ok_response, S w)).

(** An endpoint that raises an exception that is not an [APIException]. *)
Definition crash_handler : endpoint nat :=
  EpHandler (fun _ w => (Raise (OtherExc "division by zero"), S w)).

Definition get (p : string) : Request.t := Request.mk p "GET" PNone.

Definition st0 (mws : list (middleware nat)) : state nat :=
  State mws {[ "/health" := ok_handler ]} 0%nat.

Definition st_crash (mws : list (middleware nat)) : state nat :=
  State mws {[ "/crash" := crash_handler ]} 0%nat.

(** [urls = {'users': {'list': ok_handler}}] *)
Definition users_urls : urls_dict nat :=
  UCons "users" (EpDict (UCons "list" ok_handler UNil)) UNil.

(** [urls = {'x': ..., 'n': None}] *)
Definition placeholder_urls : urls_dict nat :=
  UCons "x" EpEllipsis (UCons "n" EpNone UNil).

(** No middleware, no route yet. *)
Definition empty_state : state nat := State [] ∅ 0%nat.

End Samples.

(** More samples: nested and colliding route groups, an endpoint that
    refuses, and the settings, classes and files of a start-up. *)
Module MoreSamples.

(** [urls = {'api': {'v1': {'users': ok_handler}}, 'health': ok_handler}] *)
Definition nested_urls : urls_dict nat :=
  UCons "api"
    (EpDict (UCons "v1"
               (EpDict (UCons "users" Samples.ok_handler UNil)) UNil))
    (UCons "health" Samples.ok_handler UNil).

(** [urls = {'a': {'b': crash_handler}, '/ab': ok_handler}]: both leaves
    flatten to ['/ab']. *)
Definition colliding_urls : urls_dict nat :=
  UCons "a" (EpDict (UCons "b" Samples.crash_handler UNil))
    (UCons "/ab" Samples.ok_handler UNil).

Definition conflict : APIException.t :=
  APIException.mk (PStr "conflict") 409.

(** An endpoint that raises [APIException(detail='conflict',
    status_code=409)]. *)
Definition conflict_handler (request : Request.t) (w : nat)
    : result Response.t * nat :=
  (Raise (ApiExc conflict), S w).

Definition st_conflict : state nat :=
  State [] {[ "/users" := EpHandler conflict_handler ]} 0%nat.

(** [before] is cancelled: it raises [asyncio.CancelledError], which is
    not an [Exception]. *)
Definition Cancelled : middleware nat :=
  Middleware "Cancelled"
    (fun _ w => (Raise (BaseExc "CancelledError"), S w))
    (fun response w => (Ok response, S w)).

Definition db_path : string := "panther.middlewares.db.Middleware".

(** The classes that the sample [import_class] knows. *)
Definition import_class (path : string) : result (middleware_class nat) :=
  if String.eqb path "app.Auth" then
    Ok (MiddlewareClass "<class 'app.Auth'>" true (fun _ => Ok Samples.A))
  else if String.eqb path "app.Log" then
    Ok (MiddlewareClass "<class 'app.Log'>" true (fun _ => Ok Samples.B))
  else if String.eqb path db_path then
    Ok (MiddlewareClass "<class 'panther.middlewares.db.Middleware'>" true
          (fun _ => Ok Samples.C))
  else if String.eqb path "app.Plain" then
    Ok (MiddlewareClass "<class 'app.Plain'>" false
          (fun _ => Raise (OtherExc "Plain() takes no arguments")))
  else Raise (OtherExc ("No module named '" +:+ path +:+ "'")).

(** The files that the sample [run_path] finds. *)
Definition run_path (urls_path : string) : run_path_result nat :=
  if String.eqb urls_path "core/urls.py" then
    RunPathGlobals {[ "urls" := EpDict Samples.users_urls ]}
  else RunPathRaises FileNotFoundError.

Definition no_urls_settings : settings := Settings None None.

Definition mongo : list (string * pyval) :=
  [("url", PStr "mongodb://127.0.0.1:27017/db")].

End MoreSamples.

(** ** Properties *)

(** *** The exception translator *)

(** C3. For every [APIException] [e], [handle_exceptions e] is a response
    whose status code is the one [e] carries and whose data is the detail
    of [e] itself when that detail is a dictionary, and the dictionary
    [{"detail": <detail>}] otherwise. [handle_exceptions] is a function of
    [e] alone, defined on every [APIException]: it reads no state, records
    no event and cannot raise. *)
Theorem handle_exceptions_spec (e : APIException.t) :
  Response.status_code (handle_exceptions e) = APIException.status_code e
  /\ (forall d, APIException.detail e = PDict d ->
        Response.data (handle_exceptions e) = PDict d)
  /\ ((forall d, APIException.detail e <> PDict d) ->
        Response.data (handle_exceptions e)
        = PDict [("detail", APIException.detail e)]).
Proof.
  unfold handle_exceptions; cbn.
  split; [reflexivity | split].
  - intros d Hd. rewrite Hd. reflexivity.
  - intros Hnd. destruct (APIException.detail e); try reflexivity.
    exfalso. eapply Hnd. reflexivity.
Qed.

Section RouteTable.

Context {World : Type}.
Implicit Types (urls : gmap string (endpoint World)) (path : string).

Lemma find_endpoint_loop_spec urls keys path :
  find_endpoint_loop urls keys path
  = if decide (path ∈ keys) then urls !!! path else EpNone.
Proof.
  induction keys as [|url keys IH]; cbn.
  - case_decide as Hin; [inversion Hin | reflexivity].
  - destruct (String.eqb_spec path url) as [->|Hne].
    + rewrite decide_True by left. reflexivity.
    + rewrite IH. repeat case_decide; try reflexivity.
      * exfalso. apply H0. by right.
      * exfalso. apply elem_of_cons in H0 as [?|?]; congruence.
Qed.

Lemma elem_of_keys urls path :
  path ∈ (map_to_list urls).*1 <-> is_Some (urls !! path).
Proof.
  rewrite list_elem_of_fmap. split.
  - intros [[k v] [-> Hkv]]. apply elem_of_map_to_list in Hkv. by exists v.
  - intros [v Hv]. exists (path, v). split; [done|].
    by apply elem_of_map_to_list.
Qed.

(** Resolution is a dictionary lookup at the request path. *)
Lemma find_endpoint_lookup urls path :
  find_endpoint urls path = default EpNone (urls !! path).
Proof.
  unfold find_endpoint. rewrite find_endpoint_loop_spec.
  case_decide as Hin.
  - apply elem_of_keys in Hin as [v Hv].
    rewrite lookup_total_alt, Hv. reflexivity.
  - destruct (urls !! path) as [v|] eqn:Hv; [|reflexivity].
    exfalso. apply Hin, elem_of_keys. by exists v.
Qed.

(** C4. Route resolution compares the request path with the registered
    paths by string equality and nothing else: a request path [q] that
    differs from every registered path resolves to [None] (not found),
    whatever prefix or suffix it shares with one of them, and a request
    path equal to a registered path resolves to the endpoint registered
    under it. [find_endpoint] is a total function: it returns on every
    table and every path and raises nothing. *)
Theorem find_endpoint_exact urls q :
  ((forall p, is_Some (urls !! p) -> q <> p) ->
     find_endpoint urls q = EpNone)
  /\ (forall h, urls !! q = Some h -> find_endpoint urls q = h).
Proof.
  rewrite find_endpoint_lookup. split.
  - intros Hne. destruct (urls !! q) as [v|] eqn:Hv; [|reflexivity].
    exfalso. apply (Hne q); [by exists v | reflexivity].
  - intros h ->. reflexivity.
Qed.

End RouteTable.

(** [/health] is registered: its proper prefix [/heal] and its proper
    suffix [health] resolve to nothing, [/health] to its endpoint. *)
Lemma find_endpoint_exact_witness :
  find_endpoint (config_urls (Samples.st0 [])) "/heal" = EpNone
  /\ find_endpoint (config_urls (Samples.st0 [])) "health" = EpNone
  /\ find_endpoint (config_urls (Samples.st0 [])) "/health"
     = Samples.ok_handler.
Proof.
  assert (Hreg : forall q p : string,
            q <> "/health" ->
            is_Some (config_urls (Samples.st0 []) !! p) -> q <> p).
  { intros q p Hq [v Hv] ->. cbn in Hv.
    apply lookup_singleton_Some in Hv as [Hv _]. congruence. }
  split; [|split].
  - apply (proj1 (find_endpoint_exact _ "/heal")).
    intros p. apply Hreg. discriminate.
  - apply (proj1 (find_endpoint_exact _ "health")).
    intros p. apply Hreg. discriminate.
  - apply (proj2 (find_endpoint_exact _ "/health")). reflexivity.
Defined.

Lemma handle_exceptions_spec_witness :
  handle_exceptions (APIException.mk (PStr "bad input") 400)
  = Response.mk (PDict [("detail", PStr "bad input")]) 400
  /\ handle_exceptions (APIException.mk (PDict [("field", PStr "x")]) 400)
     = Response.mk (PDict [("field", PStr "x")]) 400.
Proof.
  split.
  - destruct (handle_exceptions_spec
                (APIException.mk (PStr "bad input") 400)) as (Hs & _ & Hd).
    specialize (Hd ltac:(discriminate)).
    destruct (handle_exceptions _) as [dt sc]; cbn in *. by subst.
  - destruct (handle_exceptions_spec
                (APIException.mk (PDict [("field", PStr "x")]) 400))
      as (Hs & Hd & _).
    specialize (Hd _ eq_refl).
    destruct (handle_exceptions _) as [dt sc]; cbn in *. by subst.
Defined.

(** *** Route collection *)

Scheme urls_dict_mut := Induction for urls_dict Sort Prop
  with endpoint_mut := Induction for endpoint Sort Prop.

Section RouteCollection.

Context {World : Type}.
Implicit Types (urls d : urls_dict World) (ep h : endpoint World).
Implicit Types (st : state World) (pre_url url : string).

(** [collect_urls] returns normally, leaves the middlewares and the world
    alone, and performs exactly the assignments of [url_assignments]. *)
Lemma collect_urls_state urls : forall pre_url st,
  (collect_urls pre_url urls st).1
  = (Ok tt,
     State (config_middlewares st)
           (foldl assign (config_urls st) (url_assignments pre_url urls))
           (world st)).
Proof.
  induction urls as [|url ep IHep rest IHrest| | | |d IHd]
    using urls_dict_mut
    with (P0 := fun ep =>
            match ep with
            | EpDict d => forall pre_url st,
                (collect_urls pre_url d st).1
                = (Ok tt,
                   State (config_middlewares st)
                         (foldl assign (config_urls st)
                                (url_assignments pre_url d))
                         (world st))
            | _ => True
            end);
    try exact I; try exact IHd.
  - intros pre_url [mws table w]. reflexivity.
  - intros pre_url st.
    change (collect_urls pre_url (UCons url ep rest))
      with ((match ep with
             | EpEllipsis =>
                 logger_error ("URL Can't Point To Ellipsis. ('"
                               +:+ pre_url +:+ url +:+ "' -> ...)")
             | _ => ret tt
             end) ;;;
            (match ep with
             | EpNone =>
                 logger_error ("URL Can't Point To None. ('"
                               +:+ pre_url +:+ url +:+ "' -> None)")
             | _ => ret tt
             end) ;;;
            (match ep with
             | EpDict d => collect_urls (pre_url +:+ "/" +:+ url) d
             | _ => set_url (pre_url +:+ url) ep
             end) ;;;
            collect_urls pre_url rest).
    cbn [url_assignments]. rewrite foldl_app.
    destruct ep as [| |h|d]; unfold bind; cbn.
    + specialize (IHrest pre_url
        (State (config_middlewares st)
               (<[pre_url +:+ url := EpNone]> (config_urls st)) (world st))).
      destruct (collect_urls pre_url rest _) as [[r st2] tr2].
      cbn in *. exact IHrest.
    + specialize (IHrest pre_url
        (State (config_middlewares st)
               (<[pre_url +:+ url := EpEllipsis]> (config_urls st))
               (world st))).
      destruct (collect_urls pre_url rest _) as [[r st2] tr2].
      cbn in *. exact IHrest.
    + specialize (IHrest pre_url
        (State (config_middlewares st)
               (<[pre_url +:+ url := EpHandler h]> (config_urls st))
               (world st))).
      destruct (collect_urls pre_url rest _) as [[r st2] tr2].
      cbn in *. exact IHrest.
    + specialize (IHep (pre_url +:+ "/" +:+ url) st).
      destruct (collect_urls (pre_url +:+ "/" +:+ url) d st)
        as [[r1 st1] tr1].
      cbn in IHep. injection IHep as -> ->.
      specialize (IHrest pre_url
        (State (config_middlewares st)
               (foldl assign (config_urls st)
                      (url_assignments (pre_url +:+ "/" +:+ url) d))
               (world st))).
      destruct (collect_urls pre_url rest _) as [[r st2] tr2].
      cbn in *. exact IHrest.
Qed.

(** A key holds the value of the last assignment made to it. *)
Lemma foldl_assign_lookup (l : list (string * endpoint World)) :
  forall table k v,
    (k, v) ∈ l -> (forall v', (k, v') ∈ l -> v' = v) ->
    foldl assign table l !! k = Some v.
Proof.
  induction l as [|[k' v'] l IH] using rev_ind; intros table k v Hin Huniq.
  - inversion Hin.
  - rewrite foldl_app. cbn. unfold assign at 1. cbn.
    destruct (decide (k' = k)) as [->|Hne].
    + rewrite lookup_insert_eq. f_equal. apply Huniq.
      apply elem_of_app. right. by left.
    + rewrite lookup_insert_ne by done.
      apply IH.
      * apply elem_of_app in Hin as [Hin|Hin]; [done|].
        apply list_elem_of_singleton in Hin. congruence.
      * intros v'' Hv''. apply Huniq, elem_of_app. by left.
Qed.

Lemma foldl_assign_is_Some (l : list (string * endpoint World)) :
  forall table k v, (k, v) ∈ l -> is_Some (foldl assign table l !! k).
Proof.
  induction l as [|[k' v'] l IH] using rev_ind; intros table k v Hin.
  - inversion Hin.
  - rewrite foldl_app. cbn. unfold assign at 1. cbn.
    destruct (decide (k' = k)) as [->|Hne].
    + rewrite lookup_insert_eq. by eexists.
    + rewrite lookup_insert_ne by done.
      apply elem_of_app in Hin as [Hin|Hin]; [by eapply IH|].
      apply list_elem_of_singleton in Hin. congruence.
Qed.

Lemma url_assignments_leaf urls : forall pre_url url h,
  (url, h) ∈ items urls -> isinstance_EpDict h = false ->
  (pre_url +:+ url, h) ∈ url_assignments pre_url urls.
Proof.
  induction urls as [|url0 ep _ rest IH| | | |]
    using urls_dict_mut with (P0 := fun _ => True); try exact I.
  - intros pre_url url h Hin. inversion Hin.
  - intros pre_url url h Hin Hleaf. cbn in Hin. cbn [url_assignments].
    apply elem_of_app.
    apply elem_of_cons in Hin as [Heq|Hin].
    + injection Heq as <- <-. left.
      destruct h; try (by left). discriminate.
    + right. by apply IH.
Qed.

Lemma url_assignments_group urls : forall pre_url g d,
  (g, EpDict d) ∈ items urls ->
  url_assignments (pre_url +:+ "/" +:+ g) d ⊆ url_assignments pre_url urls.
Proof.
  induction urls as [|url0 ep _ rest IH| | | |]
    using urls_dict_mut with (P0 := fun _ => True); try exact I.
  - intros pre_url g d Hin. inversion Hin.
  - intros pre_url g d Hin kv Hkv. cbn in Hin. cbn [url_assignments].
    apply elem_of_app.
    apply elem_of_cons in Hin as [Heq|Hin].
    + injection Heq as <- <-. by left.
    + right. by eapply IH.
Qed.

Lemma append_assoc (a b c : string) : (a +:+ b) +:+ c = a +:+ b +:+ c.
Proof.
  induction a as [|x a IH]; [reflexivity|].
  change (String x ((a +:+ b) +:+ c) = String x (a +:+ b +:+ c)).
  by rewrite IH.
Qed.

End RouteCollection.

(** C8 (the code departs from it). A route that points to a placeholder is
    reported at load time and registered all the same: after
    [collect_urls] on [{'x': ..., 'n': None}] both errors are logged and
    both paths are keys of the route table. At request time [find_endpoint]
    returns the [...] registered under [x], the dispatcher goes on to call
    it, and the request ends in the critical log and the 500 response of
    an uncaught error. *)
Theorem collect_urls_registers_placeholders :
  let '(r, st, tr) :=
    collect_urls "" Samples.placeholder_urls Samples.empty_state in
  r = Ok tt
  /\ tr = [EvLog ERROR "URL Can't Point To Ellipsis. ('x' -> ...)";
           EvLog ERROR "URL Can't Point To None. ('n' -> None)"]
  /\ config_urls st !! "x" = Some EpEllipsis
  /\ config_urls st !! "n" = Some EpNone
  /\ find_endpoint (config_urls st) "x" = EpEllipsis
  /\ (run (Samples.get "x") st).2
     = [EvMonitoringBefore (Samples.get "x");
        EvLog CRITICAL "'ellipsis' object is not callable";
        EvHttpResponse 500 None (Some true)].
Proof. vm_compute. repeat split; reflexivity. Qed.

(** *** Reading a trace *)

Lemma before_names_app tr1 tr2 :
  before_names (tr1 ++ tr2) = before_names tr1 ++ before_names tr2.
Proof.
  induction tr1 as [|ev tr1 IH]; [reflexivity|].
  destruct ev; cbn; rewrite IH; reflexivity.
Qed.

Lemma after_names_app tr1 tr2 :
  after_names (tr1 ++ tr2) = after_names tr1 ++ after_names tr2.
Proof.
  induction tr1 as [|ev tr1 IH]; [reflexivity|].
  destruct ev; cbn; rewrite IH; reflexivity.
Qed.

Lemma before_names_other k tr :
  k <> KBefore -> Forall (fun ev => kind_of ev = k) tr -> before_names tr = [].
Proof.
  intros Hk. induction 1 as [|ev tr Hev _ IH]; [reflexivity|].
  destruct ev; cbn in *; congruence.
Qed.

Lemma http_responses_app tr1 tr2 :
  http_responses (tr1 ++ tr2) = http_responses tr1 ++ http_responses tr2.
Proof. apply filter_app. Qed.

Lemma http_responses_other k tr :
  k <> KHttp -> Forall (fun ev => kind_of ev = k) tr -> http_responses tr = [].
Proof.
  intros Hk. induction 1 as [|ev tr Hev _ IH]; [reflexivity|].
  unfold http_responses in *. rewrite filter_cons, IH.
  case_decide; [congruence | reflexivity].
Qed.

(** *** The passes of the dispatcher *)

Section Passes.

Context {World : Type}.
Implicit Types (st : state World) (mws : list (middleware World)).
Implicit Types (m : middleware World) (ep : endpoint World).

Lemma with_world_id st : with_world st (world st) = st.
Proof. by destruct st. Qed.

Lemma call_before_eq m request st :
  call_before m request st
  = ((before m request (world st)).1,
     with_world st (before m request (world st)).2,
     [EvBefore (name m) request]).
Proof.
  unfold call_before, bind, emit, call; cbn.
  by destruct (before m request (world st)).
Qed.

Lemma call_after_eq m response st :
  call_after m response st
  = ((after m response (world st)).1,
     with_world st (after m response (world st)).2,
     [EvAfter (name m) response]).
Proof.
  unfold call_after, bind, emit, call; cbn.
  by destruct (after m response (world st)).
Qed.

(** One turn of the loop of the before-pass. *)
Lemma before_pass_cons m mws request st :
  before_pass (m :: mws) request st
  = match before m request (world st) with
    | (Ok request', w) =>
        match before_pass mws request' (with_world st w) with
        | (r, st2, tr2) => (r, st2, EvBefore (name m) request :: tr2)
        end
    | (Raise e, w) => (Raise e, with_world st w, [EvBefore (name m) request])
    end.
Proof.
  cbn [before_pass]. unfold bind. rewrite call_before_eq.
  destruct (before m request (world st)) as [[request'|e] w]; cbn;
    [|reflexivity].
  by destruct (before_pass mws request' (with_world st w)) as [[r st2] tr2].
Qed.

(** One turn of the loop of the after-pass. *)
Lemma after_pass_cons m mws response st :
  after_pass (m :: mws) response st
  = match after m response (world st) with
    | (Ok response', w) =>
        match after_pass mws response' (with_world st w) with
        | (r, st2, tr2) => (r, st2, EvAfter (name m) response :: tr2)
        end
    | (Raise (ApiExc e), w) =>
        match after_pass mws (handle_exceptions e) (with_world st w) with
        | (r, st2, tr2) => (r, st2, EvAfter (name m) response :: tr2)
        end
    | (Raise (OtherExc msg), w) =>
        (Raise (OtherExc msg), with_world st w,
         [EvAfter (name m) response])
    | (Raise (BaseExc msg), w) =>
        (Raise (BaseExc msg), with_world st w,
         [EvAfter (name m) response])
    end.
Proof.
  cbn [after_pass]. unfold bind, catch. rewrite call_after_eq.
  destruct (after m response (world st)) as [[response'|[e|msg|msg]] w]; cbn;
    [| |reflexivity|reflexivity].
  - by destruct (after_pass mws response' (with_world st w))
      as [[r st2] tr2].
  - by destruct (after_pass mws (handle_exceptions e) (with_world st w))
      as [[r st2] tr2].
Qed.

(** The before-pass changes the world only, calls [before] on a prefix
    of the chain, in chain order, and on the whole chain when it
    returns. *)
Lemma before_pass_inv mws : forall request st r st' tr,
  before_pass mws request st = (r, st', tr) ->
  st' = with_world st (world st')
  /\ Forall (fun ev => kind_of ev = KBefore) tr
  /\ before_names tr `prefix_of` (name <$> mws)
  /\ (forall request', r = Ok request' -> before_names tr = name <$> mws).
Proof.
  induction mws as [|m mws IH]; intros request st r st' tr Hrun.
  - injection Hrun as <- <- <-. rewrite with_world_id.
    split_and!; [done | constructor | done | done].
  - rewrite before_pass_cons in Hrun.
    destruct (before m request (world st)) as [[request1|e] w].
    + destruct (before_pass mws request1 (with_world st w))
        as [[r2 st2] tr2] eqn:Hrest.
      injection Hrun as <- <- <-.
      destruct (IH _ _ _ _ _ Hrest) as (Hst & Hk & Hpre & Hfull).
      split_and!.
      * rewrite Hst at 1. reflexivity.
      * by constructor.
      * cbn. by apply prefix_cons.
      * intros request' ->. cbn. f_equal. by eapply Hfull.
    + injection Hrun as <- <- <-. split_and!.
      * done.
      * by repeat constructor.
      * cbn. apply prefix_cons, prefix_nil.
      * intros ? [=].
Qed.

(** The after-pass changes the world only, calls [after] on a prefix of
    the list it is given, in order, and on the whole list when it
    returns; what it raises is never an [APIException]. *)
Lemma after_pass_inv mws : forall response st r st' tr,
  after_pass mws response st = (r, st', tr) ->
  st' = with_world st (world st')
  /\ Forall (fun ev => kind_of ev = KAfter) tr
  /\ after_names tr `prefix_of` (name <$> mws)
  /\ (forall response', r = Ok response' -> after_names tr = name <$> mws)
  /\ (forall e, r = Raise e -> forall a, e <> ApiExc a).
Proof.
  induction mws as [|m mws IH]; intros response st r st' tr Hrun.
  - injection Hrun as <- <- <-. rewrite with_world_id.
    split_and!; [done | constructor | done | done | intros ? [=]].
  - rewrite after_pass_cons in Hrun.
    destruct (after m response (world st)) as [[response1|[e|msg|msg]] w].
    + destruct (after_pass mws response1 (with_world st w))
        as [[r2 st2] tr2] eqn:Hrest.
      injection Hrun as <- <- <-.
      destruct (IH _ _ _ _ _ Hrest) as (Hst & Hk & Hpre & Hfull & Hexn).
      split_and!.
      * rewrite Hst at 1. reflexivity.
      * by constructor.
      * cbn. by apply prefix_cons.
      * intros response' ->. cbn. f_equal. by eapply Hfull.
      * exact Hexn.
    + destruct (after_pass mws (handle_exceptions e) (with_world st w))
        as [[r2 st2] tr2] eqn:Hrest.
      injection Hrun as <- <- <-.
      destruct (IH _ _ _ _ _ Hrest) as (Hst & Hk & Hpre & Hfull & Hexn).
      split_and!.
      * rewrite Hst at 1. reflexivity.
      * by constructor.
      * cbn. by apply prefix_cons.
      * intros response' ->. cbn. f_equal. by eapply Hfull.
      * exact Hexn.
    + injection Hrun as <- <- <-. split_and!.
      * done.
      * by repeat constructor.
      * cbn. apply prefix_cons, prefix_nil.
      * intros ? [=].
      * intros e [= <-]. done.
    + injection Hrun as <- <- <-. split_and!.
      * done.
      * by repeat constructor.
      * cbn. apply prefix_cons, prefix_nil.
      * intros ? [=].
      * intros e [= <-]. done.
Qed.

(** Calling the endpoint changes the world only and leaves at most the
    event of the call. *)
Lemma call_endpoint_inv ep request st r st' tr :
  call_endpoint ep request st = (r, st', tr) ->
  st' = with_world st (world st')
  /\ Forall (fun ev => kind_of ev = KEndpoint) tr.
Proof.
  destruct ep as [| |h|d]; cbn; unfold raise, bind, emit, call; cbn.
  - intros [= <- <- <-]. by rewrite with_world_id.
  - intros [= <- <- <-]. by rewrite with_world_id.
  - destruct (h request (world st)) as [[response|e] w]; cbn;
      intros [= <- <- <-]; split; by repeat constructor.
  - intros [= <- <- <-]. by rewrite with_world_id.
Qed.

End Passes.

(** *** The dispatcher *)

Section Dispatcher.

Context {World : Type}.
Implicit Types (st : state World) (mws : list (middleware World)).
Implicit Types (m : middleware World) (ep : endpoint World).
Implicit Types (request : Request.t) (response : Response.t).

Lemma try_body_eq ep request st :
  try_body ep request st
  = match before_pass (config_middlewares st) request st with
    | (Ok request', st1, tr1) =>
        match call_endpoint ep request' st1 with
        | (r, st2, tr2) => (r, st2, tr1 ++ tr2)
        end
    | (Raise e, st1, tr1) => (Raise e, st1, tr1)
    end.
Proof.
  unfold try_body, bind, gets; cbn.
  destruct (before_pass (config_middlewares st) request st)
    as [[[request'|e] st1] tr1]; [|reflexivity].
  by destruct (call_endpoint ep request' st1) as [[r st2] tr2].
Qed.

Lemma post_process_eq response st :
  post_process response st
  = match after_pass (rev (config_middlewares st)) response (reversed st)
    with
    | (Ok response', st2, tr2) =>
        (Ok tt, st2,
         tr2 ++ [EvHttpResponse (Response.status_code response')
                   (Some (Response.data response')) None])
    | (Raise e, st2, tr2) => (Raise e, st2, tr2)
    end.
Proof.
  unfold post_process, bind, gets, reverse_middlewares, modify,
    http_response, emit; cbn.
  fold (reversed st).
  by destruct (after_pass (rev (config_middlewares st)) response
                 (reversed st)) as [[[response'|e] st2] tr2].
Qed.

(** The four ways through [run]: route miss; uncaught error in the
    [try] statement; [APIException] in the [try] statement; normal
    return of the endpoint. The last two go through the after-pass. *)
Lemma run_eq request st :
  run request st
  = let ep := find_endpoint (config_urls st) (Request.path request) in
    if is_EpNone ep then
      (Ok tt, st,
       [EvMonitoringBefore request; EvHttpResponse 404 None (Some true)])
    else
      match try_body ep request st with
      | (Raise (OtherExc msg), st1, tr1) =>
          (Ok tt, st1,
           EvMonitoringBefore request
             :: tr1 ++ [EvLog CRITICAL msg;
                        EvHttpResponse 500 None (Some true)])
      | (Raise (BaseExc msg), st1, tr1) =>
          (Raise (BaseExc msg), st1, EvMonitoringBefore request :: tr1)
      | (Raise (ApiExc e), st1, tr1) =>
          match post_process (handle_exceptions e) st1 with
          | (r, st2, tr2) => (r, st2, EvMonitoringBefore request :: tr1 ++ tr2)
          end
      | (Ok response, st1, tr1) =>
          match post_process response st1 with
          | (r, st2, tr2) => (r, st2, EvMonitoringBefore request :: tr1 ++ tr2)
          end
      end.
Proof.
  unfold run. cbv zeta.
  unfold bind at 1 2. unfold emit at 1. unfold gets at 1. cbn [app].
  destruct (is_EpNone (find_endpoint (config_urls st) (Request.path request)));
    [reflexivity|].
  generalize (@post_process World). intros pp.
  unfold bind at 1. unfold catch. unfold bind at 1.
  destruct (try_body _ request st) as [[[response|[e|msg|msg]] st1] tr1]; cbn.
  - rewrite app_nil_r.
    by destruct (pp response st1) as [[r st2] tr2].
  - rewrite app_nil_r.
    by destruct (pp (handle_exceptions e) st1) as [[r st2] tr2].
  - rewrite app_nil_r. reflexivity.
  - rewrite app_nil_r. reflexivity.
Qed.

(** C6. When the route is resolved and a before-hook or the endpoint
    raises an exception that is not an [APIException], [run] logs the
    exception at critical severity and then calls the emitter with the
    status 500 and the exception flag set, and returns. The emitter is
    given no body: nothing of the exception reaches it, the call is the
    same whatever the exception says. *)
Theorem unhandled_error_500 request st msg st1 tr1 :
  let ep := find_endpoint (config_urls st) (Request.path request) in
  is_EpNone ep = false ->
  (before_pass (config_middlewares st) request st
     = (Raise (OtherExc msg), st1, tr1)
   \/ exists request' st0 tr0 tr',
        before_pass (config_middlewares st) request st
          = (Ok request', st0, tr0)
        /\ call_endpoint ep request' st0 = (Raise (OtherExc msg), st1, tr')
        /\ tr1 = tr0 ++ tr') ->
  run request st
  = (Ok tt, st1,
     EvMonitoringBefore request
       :: tr1 ++ [EvLog CRITICAL msg;
                  EvHttpResponse status.HTTP_500_INTERNAL_SERVER_ERROR
                                 None (Some true)]).
Proof.
  intros ep Hep Hraise. rewrite run_eq. cbv zeta. fold ep. rewrite Hep.
  rewrite try_body_eq.
  destruct Hraise as [Hb | (request' & st0 & tr0 & tr' & Hb & He & ->)].
  - rewrite Hb. reflexivity.
  - rewrite Hb, He. reflexivity.
Qed.




(** An after-pass that raises ends on the call of the hook that
    raised. *)
Lemma after_pass_raise_last mws : forall response st e st' tr,
  after_pass mws response st = (Raise e, st', tr) ->
  exists nm response', last tr = Some (EvAfter nm response').
Proof.
  induction mws as [|m mws IH]; intros response st e st' tr Hrun;
    [discriminate|].
  rewrite after_pass_cons in Hrun.
  destruct (after m response (world st)) as [[response1|[e1|msg|msg]] w].
  - destruct (after_pass mws response1 (with_world st w))
      as [[r2 st2] tr2] eqn:Hrest.
    injection Hrun as -> <- <-.
    destruct (IH _ _ _ _ _ Hrest) as (nm & response' & Hlast).
    exists nm, response'. by rewrite last_cons, Hlast.
  - destruct (after_pass mws (handle_exceptions e1) (with_world st w))
      as [[r2 st2] tr2] eqn:Hrest.
    injection Hrun as -> <- <-.
    destruct (IH _ _ _ _ _ Hrest) as (nm & response' & Hlast).
    exists nm, response'. by rewrite last_cons, Hlast.
  - injection Hrun as <- <- <-. by eexists _, _.
  - injection Hrun as <- <- <-. by eexists _, _.
Qed.

(** X5. How far the dispatcher keeps its errors to itself (for hooks
    and endpoints that return a [Request] or a [Response]): a run that
    returns has called the emitter once; a run that raises has not
    called it, and what it raises is never an [APIException]: it is an
    exception that [except Exception] does not catch, or an exception
    that an after-hook raised, in which case the call of that after-hook
    is the last thing the run did. *)
Lemma run_emits_once_or_raises request st :
  match run request st with
  | (Ok _, _, tr) => length (http_responses tr) = 1%nat
  | (Raise e, st', tr) =>
      http_responses tr = []
      /\ (forall a, e <> ApiExc a)
      /\ (forall msg, e = OtherExc msg ->
            exists nm response, last tr = Some (EvAfter nm response))
  end.
Proof.
  rewrite run_eq. cbv zeta.
  destruct (is_EpNone _); [reflexivity|].
  destruct (try_body _ request st) as [[r1 st1] tr1] eqn:Ht.
  assert (H1 : http_responses tr1 = []).
  { revert Ht. rewrite try_body_eq.
    destruct (before_pass (config_middlewares st) request st)
      as [[rb st0] tr0] eqn:Hb.
    destruct (before_pass_inv _ _ _ _ _ _ Hb) as (_ & Hk0 & _ & _).
    assert (H0 : http_responses tr0 = [])
      by (by apply (http_responses_other KBefore)).
    destruct rb as [request'|e]; [|by intros [= <- <- <-]].
    destruct (call_endpoint _ request' st0) as [[re st'] tr'] eqn:He.
    destruct (call_endpoint_inv _ _ _ _ _ _ He) as (_ & Hk').
    intros [= <- <- <-]. rewrite http_responses_app, H0.
    by apply (http_responses_other KEndpoint). }
  assert (Hwrap : forall response,
            match
              (let '(r, st2, tr2) := post_process response st1 in
               (r, st2, EvMonitoringBefore request :: tr1 ++ tr2))
            with
            | (Ok _, _, tr) => length (http_responses tr) = 1%nat
            | (Raise e, st', tr) =>
                http_responses tr = []
                /\ (forall a, e <> ApiExc a)
                /\ (forall msg, e = OtherExc msg ->
                      exists nm response',
                        last tr = Some (EvAfter nm response'))
            end).
  { intros response. rewrite post_process_eq.
    destruct (after_pass _ response (reversed st1))
      as [[ra st2] tr2] eqn:Ha.
    destruct (after_pass_inv _ _ _ _ _ _ Ha) as (_ & Hk2 & _ & _ & Hexn).
    assert (H2 : http_responses tr2 = [])
      by (by apply (http_responses_other KAfter)).
    change (EvMonitoringBefore request :: tr1 ++ ?l)
      with ([EvMonitoringBefore request] ++ tr1 ++ l).
    destruct ra as [response'|e].
    - by rewrite !http_responses_app, H1, H2.
    - rewrite !http_responses_app, H1, H2.
      split_and!; [done | by apply Hexn |].
      intros msg _.
      destruct (after_pass_raise_last _ _ _ _ _ _ Ha)
        as (nm & response' & Hlast).
      exists nm, response'. by rewrite !last_app, Hlast. }
  destruct r1 as [response|[e|msg|msg]].
  - apply Hwrap.
  - apply Hwrap.
  - change (EvMonitoringBefore request :: tr1 ++ ?l)
      with ([EvMonitoringBefore request] ++ tr1 ++ l).
    by rewrite !http_responses_app, H1.
  - change (EvMonitoringBefore request :: tr1)
      with ([EvMonitoringBefore request] ++ tr1).
    rewrite http_responses_app, H1. split_and!; [done | done |].
    intros msg' [=].
Qed.

Lemma try_body_inv ep request st r st1 tr1 :
  try_body ep request st = (r, st1, tr1) ->
  config_middlewares st1 = config_middlewares st
  /\ config_urls st1 = config_urls st
  /\ before_names tr1 `prefix_of` (name <$> config_middlewares st)
  /\ (forall x, EvEndpoint x ∈ tr1 ->
        before_names tr1 = name <$> config_middlewares st).
Proof.
  rewrite try_body_eq.
  destruct (before_pass (config_middlewares st) request st)
    as [[[request'|e] st0] tr0] eqn:Hb;
    destruct (before_pass_inv _ _ _ _ _ _ Hb) as (Hst0 & Hk0 & Hpre & Hfull).
  - destruct (call_endpoint ep request' st0) as [[r' st'] tr'] eqn:He.
    destruct (call_endpoint_inv _ _ _ _ _ _ He) as (Hst' & Hk').
    intros [= <- <- <-].
    rewrite before_names_app, (before_names_other KEndpoint tr'),
      app_nil_r by done.
    rewrite Hst', Hst0. split_and!; [done | done | done |].
    intros x _. by eapply Hfull.
  - intros [= <- <- <-]. rewrite Hst0. split_and!; [done | done | done |].
    intros x Hin. rewrite Forall_forall in Hk0.
    specialize (Hk0 _ Hin). discriminate.
Qed.

Lemma post_process_inv response st r st2 tr2 :
  post_process response st = (r, st2, tr2) ->
  config_middlewares st2 = rev (config_middlewares st)
  /\ config_urls st2 = config_urls st
  /\ before_names tr2 = []
  /\ (forall x, EvEndpoint x ∉ tr2).
Proof.
  rewrite post_process_eq.
  destruct (after_pass (rev (config_middlewares st)) response (reversed st))
    as [[ra st'] tr'] eqn:Ha.
  destruct (after_pass_inv _ _ _ _ _ _ Ha) as (Hst' & Hk' & _).
  assert (Hb : before_names tr' = [])
    by (by apply (before_names_other KAfter)).
  assert (He : forall x, EvEndpoint x ∉ tr').
  { intros x Hin. rewrite Forall_forall in Hk'.
    specialize (Hk' _ Hin). discriminate. }
  destruct ra as [response'|e]; intros [= <- <- <-]; rewrite Hst'.
  - split_and!; [done | done | |].
    + by rewrite before_names_app, Hb.
    + intros x [Hin|Hin]%elem_of_app; [by eapply He|].
      apply list_elem_of_singleton in Hin. discriminate.
  - done.
Qed.

(** The [try] body does not call the emitter. *)
Lemma try_body_no_http ep request st r st1 tr1 :
  try_body ep request st = (r, st1, tr1) ->
  Forall (fun ev => kind_of ev <> KHttp) tr1.
Proof.
  rewrite try_body_eq.
  destruct (before_pass (config_middlewares st) request st)
    as [[[request'|e] st0] tr0] eqn:Hb;
    destruct (before_pass_inv _ _ _ _ _ _ Hb) as (_ & Hk0 & _ & _).
  - destruct (call_endpoint ep request' st0) as [[r' st'] tr'] eqn:He.
    destruct (call_endpoint_inv _ _ _ _ _ _ He) as (_ & Hk').
    intros [= <- <- <-]. apply Forall_app. split.
    + eapply Forall_impl; [exact Hk0|]. by intros ev ->.
    + eapply Forall_impl; [exact Hk'|]. by intros ev ->.
  - intros [= <- <- <-]. eapply Forall_impl; [exact Hk0|]. by intros ev ->.
Qed.

(** A trace without a call of the emitter does not end in one. *)
Lemma ends_served_no_http tr :
  Forall (fun ev => kind_of ev <> KHttp) tr -> ends_served tr = false.
Proof.
  intros Hk. unfold ends_served.
  destruct (last tr) as [ev|] eqn:Hlast; [|done].
  apply last_Some_elem_of in Hlast.
  rewrite Forall_forall in Hk. specialize (Hk _ Hlast).
  by destruct ev.
Qed.

(** What every run keeps: the route table; the before-hooks are called
    on a prefix of the chain as [config] has it when the request comes
    in, and on all of it when the endpoint is reached; a fully served
    request leaves the chain reversed. *)
Lemma run_inv request st r st' tr :
  run request st = (r, st', tr) ->
  config_urls st' = config_urls st
  /\ before_names tr `prefix_of` (name <$> config_middlewares st)
  /\ (forall x, EvEndpoint x ∈ tr ->
        before_names tr = name <$> config_middlewares st)
  /\ (ends_served tr = true ->
      config_middlewares st' = rev (config_middlewares st)).
Proof.
  rewrite run_eq. cbv zeta.
  destruct (is_EpNone _).
  { intros [= <- <- <-]. split_and!; [done | apply prefix_nil | |].
    - intros x Hin. repeat (apply elem_of_cons in Hin as [Hin|Hin];
                             [discriminate|]). inversion Hin.
    - intros [=]. }
  destruct (try_body _ request st)
    as [[[response|[e|msg|msg]] st1] tr1] eqn:Ht;
    destruct (try_body_inv _ _ _ _ _ _ Ht) as (Hm1 & Hu1 & Hpre & Hfull);
    pose proof (try_body_no_http _ _ _ _ _ _ Ht) as Hk1.
  - destruct (post_process response st1) as [[rp st2] tr2] eqn:Hp.
    destruct (post_process_inv _ _ _ _ _ Hp) as (Hm2 & Hu2 & Hb2 & He2).
    intros [= <- <- <-]. cbn [before_names].
    rewrite before_names_app, Hb2, app_nil_r.
    split_and!; [congruence | done | | congruence].
    intros x [?|[Hin|Hin]%elem_of_app]%elem_of_cons;
      [discriminate | by eapply Hfull | by destruct (He2 x)].
  - destruct (post_process (handle_exceptions e) st1)
      as [[rp st2] tr2] eqn:Hp.
    destruct (post_process_inv _ _ _ _ _ Hp) as (Hm2 & Hu2 & Hb2 & He2).
    intros [= <- <- <-]. cbn [before_names].
    rewrite before_names_app, Hb2, app_nil_r.
    split_and!; [congruence | done | | congruence].
    intros x [?|[Hin|Hin]%elem_of_app]%elem_of_cons;
      [discriminate | by eapply Hfull | by destruct (He2 x)].
  - intros [= <- <- <-]. cbn [before_names].
    rewrite before_names_app. cbn [before_names]. rewrite app_nil_r.
    split_and!; [done | done | |].
    + intros x [?|[Hin|Hin]%elem_of_app]%elem_of_cons;
        [discriminate | by eapply Hfull |].
      repeat (apply elem_of_cons in Hin as [Hin|Hin]; [discriminate|]).
      inversion Hin.
    + unfold ends_served. rewrite last_cons, last_app. intros [=].
  - intros [= <- <- <-]. cbn [before_names].
    split_and!; [done | done | |].
    + intros x [?|Hin]%elem_of_cons; [discriminate | by eapply Hfull].
    + rewrite ends_served_no_http; [intros [=]|].
      constructor; [done | exact Hk1].
Qed.

(** C9. In-place reversal undoes itself: when two requests in a row are
    fully served through the same [config], the first leaves the chain
    reversed and the second leaves it in registration order again. The
    before-pass of the second request goes through the reversed chain,
    the before-pass of a third request through the chain in registration
    order (all of it when that request reaches its endpoint). *)
Theorem two_served_requests_restore_order st request1 request2 :
  fully_served request1 st = true ->
  fully_served request2 (run request1 st).1.2 = true ->
  let st1 := (run request1 st).1.2 in
  let st2 := (run request2 st1).1.2 in
  config_middlewares st1 = rev (config_middlewares st)
  /\ config_middlewares st2 = config_middlewares st
  /\ before_names (run request2 st1).2
       `prefix_of` (name <$> rev (config_middlewares st))
  /\ (forall request3,
        before_names (run request3 st2).2
          `prefix_of` (name <$> config_middlewares st)
        /\ (forall x, EvEndpoint x ∈ (run request3 st2).2 ->
              before_names (run request3 st2).2
              = name <$> config_middlewares st)).
Proof.
  unfold fully_served. intros Hs1 Hs2. cbv zeta.
  destruct (run request1 st) as [[r1 st1] tr1] eqn:H1.
  destruct (run_inv _ _ _ _ _ H1) as (_ & _ & _ & Hrev1).
  cbn [fst snd] in *. specialize (Hrev1 Hs1).
  destruct (run request2 st1) as [[r2 st2] tr2] eqn:H2.
  destruct (run_inv _ _ _ _ _ H2) as (_ & Hpre2 & _ & Hrev2).
  cbn [fst snd] in *. specialize (Hrev2 Hs2).
  rewrite Hrev1 in Hrev2, Hpre2. rewrite rev_involutive in Hrev2.
  split_and!; [done | done | done |].
  intros request3.
  destruct (run request3 st2) as [[r3 st3] tr3] eqn:H3.
  destruct (run_inv _ _ _ _ _ H3) as (_ & Hpre3 & Hfull3 & _).
  rewrite Hrev2 in Hpre3, Hfull3. done.
Qed.

End Dispatcher.

(** *** The dispatcher on the samples *)

(** C1 (the code departs from it). The chain is reversed in place for the
    after-pass and left reversed: with the chain [A, B, C], a first
    request is fully served with its before-hooks called in the order
    A, B, C, and the before-hooks of a second request through the same
    [config] are called in the order C, B, A. *)
Theorem second_request_sees_reversed_chain :
  let request := Samples.get "/health" in
  let st := Samples.st0 [Samples.A; Samples.B; Samples.C] in
  let st1 := (run request st).1.2 in
  before_names (run request st).2 = ["A"; "B"; "C"]
  /\ fully_served request st = true
  /\ name <$> config_middlewares st1 = ["C"; "B"; "A"]
  /\ before_names (run request st1).2 = ["C"; "B"; "A"].
Proof. vm_compute. repeat split; reflexivity. Qed.

(** C7 (the code departs from it). An exception that is not an
    [APIException], raised by an after-hook, is caught nowhere in [run]:
    it leaves [run], and the emitter has not been called. *)
Theorem after_hook_crash_escapes_run :
  let '(r, _, tr) :=
    run (Samples.get "/health") (Samples.st0 [Samples.AfterCrash]) in
  r = Raise (OtherExc "boom")
  /\ http_responses tr = []
  /\ after_names tr = ["AfterCrash"].
Proof. vm_compute. repeat split; reflexivity. Qed.

(** The claim C2 as the specification words it fails: the before-hook of
    [Deny] raises an [APIException] and the after-hooks of [Deny] and [A]
    run all the same. *)
Lemma after_pass_not_skipped_after_before_error :
  ~ (forall (st : state nat) request e st1 tr1,
       is_EpNone (find_endpoint (config_urls st) (Request.path request))
         = false ->
       before_pass (config_middlewares st) request st
         = (Raise (ApiExc e), st1, tr1) ->
       after_names (run request st).2 = []).
Proof.
  intros H.
  pose proof (H (Samples.st0 [Samples.A; Samples.Deny])
                (Samples.get "/health") Samples.forbidden) as H'.
  vm_compute in H'. specialize (H' _ _ eq_refl eq_refl). discriminate.
Qed.

(** A crash in a before-hook and a crash in the endpoint both end in the
    critical log and the bare 500. *)
Lemma unhandled_error_500_witness :
  run (Samples.get "/health") (Samples.st0 [Samples.BeforeCrash])
  = (Ok tt,
     State [Samples.BeforeCrash] {[ "/health" := Samples.ok_handler ]} 1%nat,
     EvMonitoringBefore (Samples.get "/health")
       :: [EvBefore "BeforeCrash" (Samples.get "/health")]
          ++ [EvLog CRITICAL "boom"; EvHttpResponse 500 None (Some true)])
  /\ run (Samples.get "/crash") (Samples.st_crash [Samples.A])
     = (Ok tt,
        State [Samples.A] {[ "/crash" := Samples.crash_handler ]} 2%nat,
        EvMonitoringBefore (Samples.get "/crash")
          :: ([EvBefore "A" (Samples.get "/crash")]
              ++ [EvEndpoint (Samples.get "/crash")])
             ++ [EvLog CRITICAL "division by zero";
                 EvHttpResponse 500 None (Some true)]).
Proof.
  split.
  - apply (unhandled_error_500 (Samples.get "/health")
             (Samples.st0 [Samples.BeforeCrash]) "boom").
    + vm_compute. reflexivity.
    + left. vm_compute. reflexivity.
  - apply (unhandled_error_500 (Samples.get "/crash")
             (Samples.st_crash [Samples.A]) "division by zero").
    + vm_compute. reflexivity.
    + right.
      exists (Samples.get "/crash"),
             (State [Samples.A] {[ "/crash" := Samples.crash_handler ]} 1%nat),
             [EvBefore "A" (Samples.get "/crash")],
             [EvEndpoint (Samples.get "/crash")].
      split_and!; [vm_compute; reflexivity | vm_compute; reflexivity | done].
Defined.


(** Three requests through [A, B, C]: the third one meets the chain in
    registration order again. *)
Lemma two_served_requests_restore_order_witness :
  let request := Samples.get "/health" in
  let st := Samples.st0 [Samples.A; Samples.B; Samples.C] in
  let st1 := (run request st).1.2 in
  let st2 := (run request st1).1.2 in
  config_middlewares st2 = [Samples.A; Samples.B; Samples.C]
  /\ before_names (run request st2).2 = ["A"; "B"; "C"].
Proof.
  cbv zeta.
  destruct (two_served_requests_restore_order
              (Samples.st0 [Samples.A; Samples.B; Samples.C])
              (Samples.get "/health") (Samples.get "/health"))
    as (_ & Hback & _ & Hthird).
  - vm_compute. reflexivity.
  - vm_compute. reflexivity.
  - split; [exact Hback|].
    apply (proj2 (Hthird (Samples.get "/health")) (Samples.get "/health")).
    vm_compute. do 4 right. left.
Defined.


(** ** Further properties of the dispatcher *)

Lemma after_names_none tr :
  Forall (fun ev => kind_of ev <> KAfter) tr -> after_names tr = [].
Proof.
  induction 1 as [|ev tr Hev _ IH]; [reflexivity|].
  destruct ev; cbn in *; congruence.
Qed.

Lemma before_names_none tr :
  Forall (fun ev => kind_of ev <> KBefore) tr -> before_names tr = [].
Proof.
  induction 1 as [|ev tr Hev _ IH]; [reflexivity|].
  destruct ev; cbn in *; congruence.
Qed.

Lemma http_responses_none tr :
  Forall (fun ev => kind_of ev <> KHttp) tr -> http_responses tr = [].
Proof.
  induction 1 as [|ev tr Hev _ IH]; [reflexivity|].
  unfold http_responses in *. rewrite filter_cons, IH.
  case_decide; [congruence | reflexivity].
Qed.

Section DispatcherMore.

Context {World : Type}.
Implicit Types (st : state World) (mws : list (middleware World)).
Implicit Types (m : middleware World) (ep : endpoint World).
Implicit Types (request : Request.t) (response : Response.t).

(** The [try] body leaves calls of before-hooks and of the endpoint, and
    nothing else. *)
Lemma try_body_kinds ep request st r st1 tr1 :
  try_body ep request st = (r, st1, tr1) ->
  Forall (fun ev => kind_of ev = KBefore \/ kind_of ev = KEndpoint) tr1.
Proof.
  rewrite try_body_eq.
  destruct (before_pass (config_middlewares st) request st)
    as [[[request'|e] st0] tr0] eqn:Hb;
    destruct (before_pass_inv _ _ _ _ _ _ Hb) as (_ & Hk0 & _ & _).
  - destruct (call_endpoint ep request' st0) as [[r' st'] tr'] eqn:He.
    destruct (call_endpoint_inv _ _ _ _ _ _ He) as (_ & Hk').
    intros [= <- <- <-]. apply Forall_app. split.
    + eapply Forall_impl; [exact Hk0|]. intros ? ?. by left.
    + eapply Forall_impl; [exact Hk'|]. intros ? ?. by right.
  - intros [= <- <- <-]. eapply Forall_impl; [exact Hk0|]. intros ? ?. by left.
Qed.

(** The after-pass and the emission leave calls of after-hooks and of
    the emitter, and nothing else; when [post_process] returns, the
    after-hooks were called on the whole reversed chain, in its order. *)
Lemma post_process_kinds response st r st2 tr2 :
  post_process response st = (r, st2, tr2) ->
  Forall (fun ev => kind_of ev = KAfter \/ kind_of ev = KHttp) tr2
  /\ (r = Ok tt ->
      after_names tr2 = name <$> rev (config_middlewares st)
      /\ ends_served tr2 = true)
  /\ (forall e, r = Raise e -> ends_served (tr2) = false
                               /\ Forall (fun ev => kind_of ev = KAfter) tr2).
Proof.
  rewrite post_process_eq.
  destruct (after_pass (rev (config_middlewares st)) response (reversed st))
    as [[ra st'] tr'] eqn:Ha.
  destruct (after_pass_inv _ _ _ _ _ _ Ha) as (_ & Hk' & _ & Hfull & _).
  destruct ra as [response'|e]; intros [= <- <- <-].
  - split_and!.
    + apply Forall_app. split.
      * eapply Forall_impl; [exact Hk'|]. intros ? ?. by left.
      * constructor; [by right | constructor].
    + intros _. split.
      * rewrite after_names_app, (Hfull response') by done. cbn.
        by rewrite app_nil_r.
      * unfold ends_served. by rewrite last_snoc.
    + intros e [=].
  - split_and!.
    + eapply Forall_impl; [exact Hk'|]. intros ? ?. by left.
    + intros [=].
    + intros e' _. split; [|done].
      unfold ends_served. destruct (last tr') as [ev|] eqn:Hlast; [|done].
      apply last_Some_elem_of in Hlast.
      rewrite Forall_forall in Hk'. specialize (Hk' _ Hlast).
      by destruct ev.
Qed.

(** A hypothesis [Hk] on the kinds of a trace refutes the membership
    [Hin] of an event of another kind. *)
Ltac kind_absurd Hk Hin :=
  let H := fresh in
  pose proof (proj1 (Forall_forall _ _) Hk _ Hin) as H; cbn in H;
  first [discriminate H | destruct H; discriminate].

Lemma ends_served_kind tr :
  ends_served tr = true -> ~ Forall (fun ev => kind_of ev <> KHttp) tr.
Proof.
  unfold ends_served. destruct (last tr) as [ev|] eqn:Hlast; [|done].
  intros Hev Hk. apply last_Some_elem_of in Hlast.
  rewrite Forall_forall in Hk. specialize (Hk _ Hlast).
  by destruct ev.
Qed.

(** What the before-pass does after the middlewares of [pre]. *)
Lemma before_pass_app pre : forall mws request st,
  before_pass (pre ++ mws) request st
  = match before_pass pre request st with
    | (Ok request1, st1, tr1) =>
        match before_pass mws request1 st1 with
        | (r, st2, tr2) => (r, st2, tr1 ++ tr2)
        end
    | (Raise e, st1, tr1) => (Raise e, st1, tr1)
    end.
Proof.
  induction pre as [|m pre IH]; intros mws request st.
  - cbn. by destruct (before_pass mws request st) as [[r st2] tr2].
  - cbn [app]. rewrite !before_pass_cons.
    destruct (before m request (world st)) as [[request1|e] w];
      [|reflexivity]; rewrite IH.
    destruct (before_pass pre request1 (with_world st w))
      as [[[request2|e2] st1] tr1]; [|reflexivity].
    by destruct (before_pass mws request2 st1) as [[r st2] tr2].
Qed.

(** X1. A request whose path is not a key of the route table, or is a
    key that holds [None], gets the bare 404 with the exception flag:
    no hook and no endpoint is called and the state is left as it was. *)
Theorem run_not_found request st :
  (config_urls st !! Request.path request = None
   \/ config_urls st !! Request.path request = Some EpNone) ->
  run request st
  = (Ok tt, st,
     [EvMonitoringBefore request;
      EvHttpResponse status.HTTP_404_NOT_FOUND None (Some true)]).
Proof.
  intros Hmiss. rewrite run_eq. cbv zeta. rewrite find_endpoint_lookup.
  by destruct Hmiss as [-> | ->].
Qed.

(** X2. For a request that no other request overlaps (requests served
    one after the other, as [run] models them): the before-pass stops at
    the first hook that raises, whatever it raises. When the route is
    resolved and the [before] of [m] raises after the hooks of [pre]
    returned, the before-hooks that were called are those of [pre] and
    [m], in the order in which [config] holds them when the request
    comes in, and neither the hooks that follow [m] in the list nor the
    endpoint are called. *)
Theorem before_error_short_circuits request st pre m rest
    request_m st_m tr_m e w1 :
  is_EpNone (find_endpoint (config_urls st) (Request.path request)) = false ->
  config_middlewares st = pre ++ m :: rest ->
  before_pass pre request st = (Ok request_m, st_m, tr_m) ->
  before m request_m (world st_m) = (Raise e, w1) ->
  before_names (run request st).2 = name <$> (pre ++ [m])
  /\ (forall x, EvEndpoint x ∉ (run request st).2).
Proof.
  intros Hep Hchain Hpre Hm.
  assert (Hb : before_pass (config_middlewares st) request st
               = (Raise e, with_world st_m w1,
                  tr_m ++ [EvBefore (name m) request_m])).
  { by rewrite Hchain, before_pass_app, Hpre, before_pass_cons, Hm. }
  destruct (before_pass_inv _ _ _ _ _ _ Hpre) as (_ & Hk & _ & Hfull).
  specialize (Hfull _ eq_refl).
  rewrite run_eq. cbv zeta. rewrite Hep, try_body_eq, Hb.
  rewrite fmap_app. cbn [fmap list_fmap].
  destruct e as [a|msg|msg].
  - destruct (post_process (handle_exceptions a) (with_world st_m w1))
      as [[rp st2] tr2] eqn:Hp.
    destruct (post_process_kinds _ _ _ _ _ Hp) as (Hk2 & _).
    cbn [snd before_names]. split.
    + rewrite !before_names_app, Hfull. cbn [before_names].
      rewrite (before_names_none tr2), app_nil_r; [done|].
      eapply Forall_impl; [exact Hk2|]. by intros ev [-> | ->].
    + intros x [?|[[Hin|Hin]%elem_of_app|Hin]%elem_of_app]%elem_of_cons;
        [discriminate | kind_absurd Hk Hin | | kind_absurd Hk2 Hin].
      apply list_elem_of_singleton in Hin. discriminate.
  - cbn [snd before_names]. split.
    + rewrite !before_names_app, Hfull. cbn [before_names].
      by rewrite app_nil_r.
    + intros x [?|[[Hin|Hin]%elem_of_app|Hin]%elem_of_app]%elem_of_cons;
        [discriminate | kind_absurd Hk Hin | |].
      * apply list_elem_of_singleton in Hin. discriminate.
      * repeat (apply elem_of_cons in Hin as [Hin|Hin]; [discriminate|]).
        inversion Hin.
  - cbn [snd before_names]. split.
    + rewrite !before_names_app, Hfull. by cbn [before_names].
    + intros x [?|[Hin|Hin]%elem_of_app]%elem_of_cons;
        [discriminate | kind_absurd Hk Hin |].
      apply list_elem_of_singleton in Hin. discriminate.
Qed.

(** X3. For a request that no other request overlaps (requests served
    one after the other, as [run] models them): a fully served request
    has the [after] of every middleware of the chain called, in the
    reverse of the order in which [config] holds the chain when the
    request comes in; if its endpoint was called, the [before] of every
    middleware was called first, in the order of the chain. *)
Theorem served_request_hook_order request st :
  fully_served request st = true ->
  after_names (run request st).2 = name <$> rev (config_middlewares st)
  /\ (forall x, EvEndpoint x ∈ (run request st).2 ->
        before_names (run request st).2 = name <$> config_middlewares st).
Proof.
  unfold fully_served. intros Hserved. split.
  - revert Hserved. rewrite run_eq. cbv zeta.
    destruct (is_EpNone _); [intros [=]|].
    destruct (try_body _ request st) as [[r1 st1] tr1] eqn:Ht.
    pose proof (try_body_kinds _ _ _ _ _ _ Ht) as Hk1.
    destruct (try_body_inv _ _ _ _ _ _ Ht) as (Hm1 & _).
    assert (Ha1 : after_names tr1 = []).
    { apply after_names_none. eapply Forall_impl; [exact Hk1|].
      by intros ev [-> | ->]. }
    assert (Hpost : forall response rp st2 tr2,
              post_process response st1 = (rp, st2, tr2) ->
              ends_served (EvMonitoringBefore request :: tr1 ++ tr2) = true ->
              after_names (EvMonitoringBefore request :: tr1 ++ tr2)
              = name <$> rev (config_middlewares st)).
    { intros response rp st2 tr2 Hp Hs.
      destruct (post_process_kinds _ _ _ _ _ Hp) as (_ & Hok & Hraise).
      cbn [after_names]. rewrite after_names_app, Ha1. cbn [app].
      destruct rp as [[]|e].
      - destruct (Hok eq_refl) as [-> _]. by rewrite Hm1.
      - destruct (Hraise e eq_refl) as [_ Hk2].
        exfalso. apply (ends_served_kind _ Hs).
        constructor; [done|]. apply Forall_app. split.
        + eapply Forall_impl; [exact Hk1|]. by intros ev [-> | ->].
        + eapply Forall_impl; [exact Hk2|]. by intros ev ->. }
    destruct r1 as [response|[e|msg|msg]].
    + destruct (post_process response st1) as [[rp st2] tr2] eqn:Hp.
      cbn [snd]. by eapply Hpost.
    + destruct (post_process (handle_exceptions e) st1)
        as [[rp st2] tr2] eqn:Hp.
      cbn [snd]. by eapply Hpost.
    + cbn [snd]. unfold ends_served. rewrite last_cons, last_app.
      intros [=].
    + cbn [snd]. rewrite ends_served_no_http; [intros [=]|].
      constructor; [done|]. by eapply try_body_no_http.
  - destruct (run request st) as [[r st'] tr] eqn:Hrun.
    by destruct (run_inv _ _ _ _ _ Hrun) as (_ & _ & Hfull & _).
Qed.

(** X4. The dispatcher writes to the log only for an uncaught error: a
    log entry in the trace of [run] is at critical severity, carries the
    message of an exception other than [APIException] that the [try]
    body raised, and is followed by the 500 response that ends the run.
    An [APIException] is never logged. *)
Theorem run_logs_only_unhandled request st lvl msg :
  EvLog lvl msg ∈ (run request st).2 ->
  lvl = CRITICAL
  /\ exists st1 tr1,
       try_body (find_endpoint (config_urls st) (Request.path request))
                request st = (Raise (OtherExc msg), st1, tr1)
       /\ run request st
          = (Ok tt, st1,
             EvMonitoringBefore request
               :: tr1 ++ [EvLog CRITICAL msg;
                          EvHttpResponse
                            status.HTTP_500_INTERNAL_SERVER_ERROR
                            None (Some true)]).
Proof.
  rewrite run_eq. cbv zeta.
  destruct (is_EpNone _).
  { intros Hin.
    repeat (apply elem_of_cons in Hin as [Hin|Hin]; [discriminate|]).
    inversion Hin. }
  destruct (try_body _ request st) as [[r1 st1] tr1] eqn:Ht.
  pose proof (try_body_kinds _ _ _ _ _ _ Ht) as Hk1.
  assert (Hpost : forall response rp st2 tr2,
            post_process response st1 = (rp, st2, tr2) ->
            EvLog lvl msg ∉ EvMonitoringBefore request :: tr1 ++ tr2).
  { intros response rp st2 tr2 Hp.
    destruct (post_process_kinds _ _ _ _ _ Hp) as (Hk2 & _).
    intros [?|[Hin|Hin]%elem_of_app]%elem_of_cons;
      [discriminate | kind_absurd Hk1 Hin | kind_absurd Hk2 Hin]. }
  destruct r1 as [response|[e|msg1|msg1]].
  - destruct (post_process response st1) as [[rp st2] tr2] eqn:Hp.
    intros Hin. by destruct (Hpost _ _ _ _ Hp).
  - destruct (post_process (handle_exceptions e) st1)
      as [[rp st2] tr2] eqn:Hp.
    intros Hin. by destruct (Hpost _ _ _ _ Hp).
  - cbn [snd].
    intros [?|[Hin|Hin]%elem_of_app]%elem_of_cons;
      [discriminate | kind_absurd Hk1 Hin |].
    apply elem_of_cons in Hin as [[= -> ->]|Hin].
    + split; [done|]. by exists st1, tr1.
    + apply list_elem_of_singleton in Hin. discriminate.
  - cbn [snd].
    intros [?|Hin]%elem_of_cons; [discriminate | kind_absurd Hk1 Hin].
Qed.

(** A run leaves the route table as it found it, and the chain as it
    found it or reversed. *)
Lemma run_chain request st :
  config_urls (run request st).1.2 = config_urls st
  /\ (config_middlewares (run request st).1.2 = config_middlewares st
      \/ config_middlewares (run request st).1.2
         = rev (config_middlewares st)).
Proof.
  rewrite run_eq. cbv zeta.
  destruct (is_EpNone _); [by split; [|left]|].
  destruct (try_body _ request st) as [[r1 st1] tr1] eqn:Ht.
  destruct (try_body_inv _ _ _ _ _ _ Ht) as (Hm1 & Hu1 & _).
  destruct r1 as [response|[e|msg|msg]].
  - destruct (post_process response st1) as [[rp st2] tr2] eqn:Hp.
    destruct (post_process_inv _ _ _ _ _ Hp) as (Hm2 & Hu2 & _).
    cbn [fst snd]. split; [congruence | right; congruence].
  - destruct (post_process (handle_exceptions e) st1)
      as [[rp st2] tr2] eqn:Hp.
    destruct (post_process_inv _ _ _ _ _ Hp) as (Hm2 & Hu2 & _).
    cbn [fst snd]. split; [congruence | right; congruence].
  - cbn [fst snd]. split; [done | by left].
  - cbn [fst snd]. split; [done | by left].
Qed.

(** X6. Serving never registers, removes or replaces a route or a
    middleware: after any sequence of requests, whatever their outcomes,
    the route table is the one the first request found, every path
    resolves as it did then, and the chain holds the same middlewares in
    registration order or in the reverse of it. *)
Theorem serve_keeps_config requests : forall st,
  config_urls (serve requests st) = config_urls st
  /\ (forall path,
        find_endpoint (config_urls (serve requests st)) path
        = find_endpoint (config_urls st) path)
  /\ (config_middlewares (serve requests st) = config_middlewares st
      \/ config_middlewares (serve requests st)
         = rev (config_middlewares st)).
Proof.
  induction requests as [|request requests IH]; intros st.
  - cbn. split_and!; [done | done | by left].
  - cbn [serve].
    destruct (IH (run request st).1.2) as (Hu & _ & Hm).
    destruct (run_chain request st) as (Hu1 & Hm1).
    assert (Hurls : config_urls (serve requests (run request st).1.2)
                    = config_urls st) by congruence.
    split_and!; [done | by intros path; rewrite Hurls |].
    destruct Hm as [-> | ->], Hm1 as [-> | ->];
      rewrite ?rev_involutive; auto.
Qed.

(** X7. When every request of a sequence is fully served, the chain is
    in registration order after an even number of requests and reversed
    after an odd number. *)
Theorem all_served_parity requests : forall st,
  all_served requests st = true ->
  config_middlewares (serve requests st)
  = if Nat.even (length requests) then config_middlewares st
    else rev (config_middlewares st).
Proof.
  induction requests as [|request requests IH]; intros st Hall; [done|].
  cbn [all_served] in Hall. apply andb_true_iff in Hall as [Hs Hrest].
  cbn [serve length]. rewrite (IH _ Hrest).
  assert (Hrev : config_middlewares (run request st).1.2
                 = rev (config_middlewares st)).
  { unfold fully_served in Hs.
    destruct (run request st) as [[r st'] tr] eqn:Hrun.
    destruct (run_inv _ _ _ _ _ Hrun) as (_ & _ & _ & Hrev). by apply Hrev. }
  rewrite Hrev, rev_involutive, Nat.even_succ, <- Nat.negb_even.
  by destruct (Nat.even (length requests)).
Qed.

(** X8. With no middleware configured, the outcome of a request to a
    registered endpoint (one that returns a [Response] when it returns)
    is decided by the endpoint alone: the response it returns is emitted
    as it is; an [APIException] it raises is emitted as its translation,
    with the status code the exception carries; any other [Exception] is
    logged as critical and answered with the bare 500; in these three
    cases [run] returns. An exception that [except Exception] does not
    catch leaves [run]: nothing is logged and nothing is emitted. *)
Theorem run_without_middlewares request st h :
  config_middlewares st = [] ->
  config_urls st !! Request.path request = Some (EpHandler h) ->
  run request st
  = match h request (world st) with
    | (Ok response, w) =>
        (Ok tt, with_world st w,
         [EvMonitoringBefore request; EvEndpoint request;
          EvHttpResponse (Response.status_code response)
            (Some (Response.data response)) None])
    | (Raise (ApiExc e), w) =>
        (Ok tt, with_world st w,
         [EvMonitoringBefore request; EvEndpoint request;
          EvHttpResponse (APIException.status_code e)
            (Some (Response.data (handle_exceptions e))) None])
    | (Raise (OtherExc msg), w) =>
        (Ok tt, with_world st w,
         [EvMonitoringBefore request; EvEndpoint request;
          EvLog CRITICAL msg;
          EvHttpResponse status.HTTP_500_INTERNAL_SERVER_ERROR None
            (Some true)])
    | (Raise (BaseExc msg), w) =>
        (Raise (BaseExc msg), with_world st w,
         [EvMonitoringBefore request; EvEndpoint request])
    end.
Proof.
  destruct st as [mws urls w0]. cbn [config_middlewares config_urls world].
  intros -> Hroute.
  rewrite run_eq. cbv zeta. rewrite find_endpoint_lookup. cbn [config_urls].
  rewrite Hroute. cbn [default is_EpNone].
  rewrite try_body_eq. cbn.
  unfold bind, emit, call. cbn.
  destruct (h request w0) as [[response|[e|msg|msg]] w]; cbn;
    rewrite ?post_process_eq; reflexivity.
Qed.

(** X23. An exception that [except Exception] does not catch
    ([asyncio.CancelledError], [KeyboardInterrupt], [SystemExit]), raised
    by a before-hook or by the endpoint of a resolved route, leaves
    [run]: nothing is logged, the emitter is not called, no after-hook
    is called, and this request does not reverse
    [config['middlewares']]. *)
Theorem base_exception_escapes_run request st msg st1 tr1 :
  let ep := find_endpoint (config_urls st) (Request.path request) in
  is_EpNone ep = false ->
  (before_pass (config_middlewares st) request st
     = (Raise (BaseExc msg), st1, tr1)
   \/ exists request' st0 tr0 tr',
        before_pass (config_middlewares st) request st
          = (Ok request', st0, tr0)
        /\ call_endpoint ep request' st0 = (Raise (BaseExc msg), st1, tr')
        /\ tr1 = tr0 ++ tr') ->
  run request st
  = (Raise (BaseExc msg), st1, EvMonitoringBefore request :: tr1)
  /\ config_middlewares st1 = config_middlewares st
  /\ http_responses (run request st).2 = []
  /\ after_names (run request st).2 = []
  /\ (forall lvl text, EvLog lvl text ∉ (run request st).2).
Proof.
  intros ep Hep Hraise.
  assert (Ht : try_body ep request st = (Raise (BaseExc msg), st1, tr1)).
  { rewrite try_body_eq.
    destruct Hraise as [Hb | (request' & st0 & tr0 & tr' & Hb & He & ->)].
    - by rewrite Hb.
    - by rewrite Hb, He. }
  assert (Hrun : run request st
                 = (Raise (BaseExc msg), st1,
                    EvMonitoringBefore request :: tr1)).
  { rewrite run_eq. cbv zeta. fold ep. by rewrite Hep, Ht. }
  destruct (try_body_inv _ _ _ _ _ _ Ht) as (Hm1 & _).
  pose proof (try_body_kinds _ _ _ _ _ _ Ht) as Hk1.
  rewrite Hrun. cbn [snd]. split_and!; [done | done | | |].
  - apply http_responses_none. constructor; [done|].
    eapply Forall_impl; [exact Hk1|]. by intros ev [-> | ->].
  - apply after_names_none. constructor; [done|].
    eapply Forall_impl; [exact Hk1|]. by intros ev [-> | ->].
  - intros lvl text [?|Hin]%elem_of_cons;
      [discriminate | kind_absurd Hk1 Hin].
Qed.

(** C2, as the code has it. When the route is resolved and the
    [before] of a middleware [m] raises an [APIException] [e] (after the
    hooks of [pre] returned), no before-hook is called after that of [m]
    and the endpoint is not called; the after-pass is not skipped:
    [config['middlewares']] is reversed in place, the middleware at the
    head of the reversed list has its [after] called on the translation
    of [e], and when the after-pass along the reversed list returns a
    response from that translation, this response is what [run]
    emits. *)
Theorem before_api_error_runs_after_pass request st pre m rest
    request_m st_m tr_m e w1 :
  is_EpNone (find_endpoint (config_urls st) (Request.path request))
    = false ->
  config_middlewares st = pre ++ m :: rest ->
  before_pass pre request st = (Ok request_m, st_m, tr_m) ->
  before m request_m (world st_m) = (Raise (ApiExc e), w1) ->
  before_names (run request st).2 = name <$> (pre ++ [m])
  /\ (forall x, EvEndpoint x ∉ (run request st).2)
  /\ config_middlewares (run request st).1.2 = rev (config_middlewares st)
  /\ (forall m1, head (rev (config_middlewares st)) = Some m1 ->
        EvAfter (name m1) (handle_exceptions e) ∈ (run request st).2)
  /\ (forall response st2 tr2,
        after_pass (rev (config_middlewares st)) (handle_exceptions e)
                   (reversed (with_world st_m w1))
          = (Ok response, st2, tr2) ->
        run request st
        = (Ok tt, st2,
           EvMonitoringBefore request
             :: (tr_m ++ [EvBefore (name m) request_m]) ++ tr2
                ++ [EvHttpResponse (Response.status_code response)
                      (Some (Response.data response)) None])).
Proof.
  intros Hep Hchain Hpre Hm.
  assert (Hb : before_pass (config_middlewares st) request st
               = (Raise (ApiExc e), with_world st_m w1,
                  tr_m ++ [EvBefore (name m) request_m])).
  { by rewrite Hchain, before_pass_app, Hpre, before_pass_cons, Hm. }
  destruct (before_pass_inv _ _ _ _ _ _ Hpre) as (Hst_m & Hk & _ & Hfull).
  specialize (Hfull _ eq_refl).
  assert (Hmws : config_middlewares (with_world st_m w1)
                 = config_middlewares st) by (by rewrite Hst_m).
  rewrite run_eq. cbv zeta. rewrite Hep, try_body_eq, Hb, post_process_eq.
  rewrite Hmws.
  destruct (after_pass (rev (config_middlewares st)) (handle_exceptions e)
              (reversed (with_world st_m w1))) as [[ra st2] tr2] eqn:Ha.
  destruct (after_pass_inv _ _ _ _ _ _ Ha) as (Hst2 & Hk2 & _ & _ & _).
  assert (Hb2 : before_names tr2 = [])
    by (by apply (before_names_other KAfter)).
  split_and!.
  - rewrite fmap_app. cbn [fmap list_fmap].
    destruct ra as [response|x]; cbn [snd before_names];
      rewrite !before_names_app, Hfull, Hb2; cbn [before_names];
      by rewrite ?app_nil_r.
  - intros x Hin.
    destruct ra as [response|x']; cbn [snd] in Hin;
      apply elem_of_cons in Hin as [Hin|Hin]; try discriminate;
      repeat (apply elem_of_app in Hin as [Hin|Hin]).
    all: try (apply list_elem_of_singleton in Hin; discriminate).
    all: try (kind_absurd Hk Hin).
    all: kind_absurd Hk2 Hin.
  - destruct ra as [response|x]; cbn [fst snd]; rewrite Hst2, <- Hmws; done.
  - intros m1 Hhead.
    destruct (rev (config_middlewares st)) as [|m1' l] eqn:Hrev;
      [discriminate|]. injection Hhead as ->.
    rewrite after_pass_cons in Ha.
    assert (Hhd : exists tr', tr2 = EvAfter (name m1) (handle_exceptions e)
                                      :: tr').
    { destruct (after m1 (handle_exceptions e)
                  (world (reversed (with_world st_m w1))))
        as [[response1|[e1|msg1|msg1]] w2].
      - destruct (after_pass l response1 _) as [[? ?] tr'].
        injection Ha as _ _ <-. by eexists.
      - destruct (after_pass l (handle_exceptions e1) _) as [[? ?] tr'].
        injection Ha as _ _ <-. by eexists.
      - injection Ha as _ _ <-. by eexists.
      - injection Ha as _ _ <-. by eexists. }
    destruct Hhd as [tr' ->].
    destruct ra as [response|x]; cbn [snd];
      right; apply elem_of_app; right; cbn; by left.
  - intros response st2' tr2' [= -> -> ->]. reflexivity.
Qed.

End DispatcherMore.

(** X9. The body of a translated exception is always a dictionary, and
    translating again an exception that carries the translated body and
    status changes nothing: a detail is wrapped once and never twice. *)
Theorem handle_exceptions_wraps_once (e : APIException.t) :
  isinstance_dict (Response.data (handle_exceptions e)) = true
  /\ handle_exceptions
       (APIException.mk (Response.data (handle_exceptions e))
                        (Response.status_code (handle_exceptions e)))
     = handle_exceptions e.
Proof.
  destruct e as [dt sc]. unfold handle_exceptions. cbn.
  by destruct dt.
Qed.

Section Registration.

Context {World : Type}.
Implicit Types (st : state World) (ep : endpoint World).

(** X10. Registering a route and resolving a path: after
    [config['urls'][k] = ep], the path [k] resolves to [ep] and every
    other path resolves as before; the chain and the world are
    untouched. *)
Theorem find_endpoint_after_set_url k ep st q :
  find_endpoint (config_urls (set_url k ep st).1.2) q
  = (if String.eqb q k then ep else find_endpoint (config_urls st) q)
  /\ config_middlewares (set_url k ep st).1.2 = config_middlewares st
  /\ world (set_url k ep st).1.2 = world st.
Proof.
  cbn. split; [|done]. rewrite !find_endpoint_lookup.
  destruct (String.eqb_spec q k) as [->|Hne].
  - by rewrite lookup_insert_eq.
  - by rewrite lookup_insert_ne.
Qed.

End Registration.

(** ** Further properties of route collection *)

Section RouteCollectionMore.

Context {World : Type}.
Implicit Types (urls d : urls_dict World) (ep h : endpoint World).
Implicit Types (st : state World) (pre_url url : string).
Implicit Types (table : gmap string (endpoint World)).

Lemma append_empty_l (s : string) : "" +:+ s = s.
Proof. reflexivity. Qed.

Lemma leaf_at_cons url ep urls groups u h :
  leaf_at urls groups u h -> leaf_at (UCons url ep urls) groups u h.
Proof.
  destruct 1 as [urls u h Hin Hleaf | urls g d groups u h Hin Hd].
  - apply leaf_here; [by right | done].
  - eapply leaf_in_group; [by right | done].
Qed.

(** A leaf is assigned to the path made of the prefix, the keys of the
    groups above it, each after a ['/'], and its own key. *)
Lemma url_assignments_leaf_at urls groups u h :
  leaf_at urls groups u h ->
  forall pre_url,
    (pre_url +:+ group_path groups +:+ u, h) ∈ url_assignments pre_url urls.
Proof.
  induction 1 as [urls u h Hin Hleaf | urls g d groups u h Hin Hd IH];
    intros pre_url.
  - cbn [group_path]. rewrite append_empty_l.
    by apply url_assignments_leaf.
  - eapply url_assignments_group; [exact Hin|].
    cbn [group_path].
    replace (pre_url +:+ ("/" +:+ g +:+ group_path groups) +:+ u)
      with ((pre_url +:+ "/" +:+ g) +:+ group_path groups +:+ u).
    + apply IH.
    + by rewrite !append_assoc.
Qed.

(** Every assignment comes from a leaf. *)
Lemma url_assignments_from_leaf urls : forall pre_url p h,
  (p, h) ∈ url_assignments pre_url urls ->
  exists groups u,
    leaf_at urls groups u h /\ p = pre_url +:+ group_path groups +:+ u.
Proof.
  induction urls as [|url ep IHep rest IHrest| | | |d IHd]
    using urls_dict_mut
    with (P0 := fun ep =>
            match ep with
            | EpDict d => forall pre_url p h,
                (p, h) ∈ url_assignments pre_url d ->
                exists groups u,
                  leaf_at d groups u h
                  /\ p = pre_url +:+ group_path groups +:+ u
            | _ => True
            end);
    try exact I; try exact IHd.
  - intros pre_url p h Hin. inversion Hin.
  - intros pre_url p h Hin. cbn [url_assignments] in Hin.
    apply elem_of_app in Hin as [Hin|Hin].
    + destruct ep as [| |h0|d].
      * apply list_elem_of_singleton in Hin. injection Hin as -> ->.
        exists [], url. split; [apply leaf_here; [by left | done] | done].
      * apply list_elem_of_singleton in Hin. injection Hin as -> ->.
        exists [], url. split; [apply leaf_here; [by left | done] | done].
      * apply list_elem_of_singleton in Hin. injection Hin as -> ->.
        exists [], url. split; [apply leaf_here; [by left | done] | done].
      * destruct (IHep _ _ _ Hin) as (groups & u & Hleaf & ->).
        exists (url :: groups), u. split.
        -- eapply leaf_in_group; [by left | done].
        -- cbn [group_path]. by rewrite !append_assoc.
    + destruct (IHrest _ _ _ Hin) as (groups & u & Hleaf & ->).
      exists groups, u. split; [by apply leaf_at_cons | done].
Qed.

(** What a lookup finds after a sequence of assignments was there
    before or was assigned. *)
Lemma foldl_assign_lookup_inv (l : list (string * endpoint World)) :
  forall table k v,
    foldl assign table l !! k = Some v ->
    table !! k = Some v \/ (k, v) ∈ l.
Proof.
  induction l as [|[k' v'] l IH] using rev_ind; intros table k v Hk.
  - by left.
  - rewrite foldl_app in Hk. cbn in Hk. unfold assign at 1 in Hk. cbn in Hk.
    destruct (decide (k' = k)) as [->|Hne].
    + rewrite lookup_insert_eq in Hk. injection Hk as ->.
      right. apply elem_of_app. right. by left.
    + rewrite lookup_insert_ne in Hk by done.
      destruct (IH _ _ _ Hk) as [?|Hin]; [by left|].
      right. apply elem_of_app. by left.
Qed.

(** A key that no assignment targets keeps what it had. *)
Lemma foldl_assign_lookup_other (l : list (string * endpoint World)) :
  forall table k, k ∉ l.*1 -> foldl assign table l !! k = table !! k.
Proof.
  induction l as [|[k' v'] l IH]; intros table k Hk; [done|].
  cbn. rewrite IH.
  - unfold assign. cbn. apply lookup_insert_ne. intros ->.
    apply Hk. by left.
  - intros Hin. apply Hk. by right.
Qed.

(** X11. A leaf at any depth of the urls tree is served at the path made
    of the keys of the groups above it, each after a ['/'], followed by
    the key of the leaf with nothing in between: after
    [collect_urls('', urls)] this path resolves to the leaf, provided no
    other leaf of the tree flattens to the same path. *)
Theorem nested_leaf_resolves urls groups u h st :
  leaf_at urls groups u h ->
  (forall h', (group_path groups +:+ u, h') ∈ url_assignments "" urls ->
              h' = h) ->
  find_endpoint (config_urls (collect_urls "" urls st).1.2)
                (group_path groups +:+ u) = h.
Proof.
  intros Hleaf Huniq. rewrite collect_urls_state. cbn [snd config_urls].
  rewrite find_endpoint_lookup.
  rewrite (foldl_assign_lookup _ _ _ h); [done | | done].
  apply (url_assignments_leaf_at _ _ _ _ Hleaf "").
Qed.

(** X12. [collect_urls] invents no route and never registers a
    dictionary: whatever the route table holds afterwards was there
    before or is a leaf of the urls tree under its flattened path. When
    the table held no dictionary, no path resolves to one. *)
Theorem collect_urls_only_leaves pre_url urls st :
  let table := config_urls (collect_urls pre_url urls st).1.2 in
  (forall k v, table !! k = Some v ->
     config_urls st !! k = Some v
     \/ exists groups u,
          leaf_at urls groups u v
          /\ k = pre_url +:+ group_path groups +:+ u)
  /\ ((forall k v, config_urls st !! k = Some v ->
                   isinstance_EpDict v = false) ->
      forall path, isinstance_EpDict (find_endpoint table path) = false).
Proof.
  cbv zeta. rewrite collect_urls_state. cbn [snd config_urls].
  assert (Hinv : forall k v,
            foldl assign (config_urls st) (url_assignments pre_url urls) !! k
            = Some v ->
            config_urls st !! k = Some v
            \/ exists groups u,
                 leaf_at urls groups u v
                 /\ k = pre_url +:+ group_path groups +:+ u).
  { intros k v Hk.
    destruct (foldl_assign_lookup_inv _ _ _ _ Hk) as [?|Hin]; [by left|].
    right. by apply url_assignments_from_leaf. }
  split; [exact Hinv|].
  intros Hold path. rewrite find_endpoint_lookup.
  destruct (foldl assign _ _ !! path) as [v|] eqn:Hv; [|done].
  cbn. destruct (Hinv _ _ Hv) as [Hbefore|(groups & u & Hleaf & _)].
  - by eapply Hold.
  - clear -Hleaf. induction Hleaf; done.
Qed.

(** X13. When several leaves flatten to the same path, the one that
    [collect_urls] meets last wins: the route table holds the endpoint of
    the last assignment made to the path. *)
Theorem collect_urls_last_wins pre_url urls st l1 k v l2 :
  url_assignments pre_url urls = l1 ++ (k, v) :: l2 ->
  k ∉ l2.*1 ->
  config_urls (collect_urls pre_url urls st).1.2 !! k = Some v.
Proof.
  intros Hsplit Hlast. rewrite collect_urls_state. cbn [snd config_urls].
  rewrite Hsplit, foldl_app. cbn [foldl].
  rewrite foldl_assign_lookup_other by done.
  unfold assign. cbn. apply lookup_insert_eq.
Qed.

(** X14. [collect_urls] returns normally and touches nothing but the
    paths it assigns: a route under any other path is kept as it was, and
    so are the middleware chain and the world. *)
Theorem collect_urls_frame pre_url urls st k :
  k ∉ (url_assignments pre_url urls).*1 ->
  (collect_urls pre_url urls st).1.1 = Ok tt
  /\ config_urls (collect_urls pre_url urls st).1.2 !! k
     = config_urls st !! k
  /\ config_middlewares (collect_urls pre_url urls st).1.2
     = config_middlewares st
  /\ world (collect_urls pre_url urls st).1.2 = world st.
Proof.
  intros Hk. rewrite collect_urls_state. cbn.
  split_and!; [done | | done | done].
  by apply foldl_assign_lookup_other.
Qed.

(** When every assignment to a path has the same endpoint, so has every
    leaf that flattens to the path, and conversely. *)
Lemma leaves_agree_iff pre_url urls p h :
  (forall h', (p, h') ∈ url_assignments pre_url urls -> h' = h)
  <-> (forall groups u h',
         leaf_at urls groups u h' ->
         pre_url +:+ group_path groups +:+ u = p -> h' = h).
Proof.
  split.
  - intros Hassign groups u h' Hleaf <-. apply Hassign.
    by apply url_assignments_leaf_at.
  - intros Hleaves h' Hin.
    destruct (url_assignments_from_leaf _ _ _ _ Hin)
      as (groups & u & Hleaf & ->).
    by eapply Hleaves.
Qed.

(** C10, as the code has it. Flattening puts a ['/'] in front of the key
    of a nested group and nothing between the accumulated prefix and the
    key of a leaf: a leaf [(u, h)] of a group [g] met under the prefix
    [pre_url] makes [pre_url + '/' + g + u] a path of the route table
    (at the top level, where the prefix is empty, the path
    ['/' + g + u]), and the endpoint registered under this path is [h]
    when every leaf of the urls tree that flattens to the same path is
    [h]. *)
Theorem collect_urls_group_leaf pre_url urls g d u h st :
  (g, EpDict d) ∈ items urls ->
  (u, h) ∈ items d ->
  isinstance_EpDict h = false ->
  let p := pre_url +:+ "/" +:+ g +:+ u in
  let table := config_urls (collect_urls pre_url urls st).1.2 in
  is_Some (table !! p)
  /\ ((forall groups' u' h',
         leaf_at urls groups' u' h' ->
         pre_url +:+ group_path groups' +:+ u' = p -> h' = h) ->
      table !! p = Some h).
Proof.
  intros Hg Hu Hleaf p table.
  assert (Hin : (p, h) ∈ url_assignments pre_url urls).
  { eapply url_assignments_group; [exact Hg|].
    subst p. rewrite <- !append_assoc. rewrite (append_assoc pre_url).
    by apply url_assignments_leaf. }
  subst table. rewrite collect_urls_state. cbn.
  split.
  - by eapply foldl_assign_is_Some.
  - intros Huniq. apply foldl_assign_lookup; [done|].
    by apply leaves_agree_iff.
Qed.

(** What lines 171-174 log for one item. *)
Definition placeholder_log pre_url url ep : list event :=
  match ep with
  | EpEllipsis =>
      [EvLog ERROR ("URL Can't Point To Ellipsis. ('" +:+ pre_url
                    +:+ url +:+ "' -> ...)")]
  | EpNone =>
      [EvLog ERROR ("URL Can't Point To None. ('" +:+ pre_url
                    +:+ url +:+ "' -> None)")]
  | _ => []
  end.

(** One turn of the loop of [collect_urls]. *)
Lemma collect_urls_cons pre_url url ep rest st :
  collect_urls pre_url (UCons url ep rest) st
  = match ep with
    | EpDict d =>
        match collect_urls (pre_url +:+ "/" +:+ url) d st with
        | (Ok _, st1, tr1) =>
            match collect_urls pre_url rest st1 with
            | (r, st2, tr2) => (r, st2, tr1 ++ tr2)
            end
        | (Raise e, st1, tr1) => (Raise e, st1, tr1)
        end
    | _ =>
        match
          collect_urls pre_url rest
            (State (config_middlewares st)
                   (<[pre_url +:+ url := ep]> (config_urls st)) (world st))
        with
        | (r, st2, tr2) => (r, st2, placeholder_log pre_url url ep ++ tr2)
        end
    end.
Proof.
  change (collect_urls pre_url (UCons url ep rest))
    with ((match ep with
           | EpEllipsis =>
               logger_error ("URL Can't Point To Ellipsis. ('"
                             +:+ pre_url +:+ url +:+ "' -> ...)")
           | _ => ret tt
           end) ;;;
          (match ep with
           | EpNone =>
               logger_error ("URL Can't Point To None. ('"
                             +:+ pre_url +:+ url +:+ "' -> None)")
           | _ => ret tt
           end) ;;;
          (match ep with
           | EpDict d => collect_urls (pre_url +:+ "/" +:+ url) d
           | _ => set_url (pre_url +:+ url) ep
           end) ;;;
          collect_urls pre_url rest).
  generalize (collect_urls pre_url rest). intros crest.
  destruct ep as [| |h|d]; unfold bind; cbn.
  - by destruct (crest _) as [[r st2] tr2].
  - by destruct (crest _) as [[r st2] tr2].
  - by destruct (crest _) as [[r st2] tr2].
  - destruct (collect_urls (pre_url +:+ "/" +:+ url) d st)
      as [[[[]|e] st1] tr1]; [|reflexivity].
    by destruct (crest st1) as [[r st2] tr2].
Qed.

(** X15. [collect_urls] logs one error for each placeholder ([None] or
    [...]) among the leaves it registers, and nothing else: every event
    it leaves is an error-level log entry, and there are as many as
    there are placeholder assignments. A tree without placeholders is
    collected silently. *)
Theorem collect_urls_logs_placeholders urls : forall pre_url st,
  Forall (fun ev => exists msg, ev = EvLog ERROR msg)
         (collect_urls pre_url urls st).2
  /\ length (collect_urls pre_url urls st).2
     = length (filter (fun kv => is_placeholder kv.2 = true)
                      (url_assignments pre_url urls)).
Proof.
  induction urls as [|url ep IHep rest IHrest| | | |d IHd]
    using urls_dict_mut
    with (P0 := fun ep =>
            match ep with
            | EpDict d => forall pre_url st,
                Forall (fun ev => exists msg, ev = EvLog ERROR msg)
                       (collect_urls pre_url d st).2
                /\ length (collect_urls pre_url d st).2
                   = length (filter (fun kv => is_placeholder kv.2 = true)
                                    (url_assignments pre_url d))
            | _ => True
            end);
    try exact I; try exact IHd.
  - intros pre_url st. cbn. split; [constructor | done].
  - intros pre_url st. rewrite collect_urls_cons.
    cbn [url_assignments]. rewrite filter_app, length_app.
    destruct ep as [| |h|d].
    + match goal with |- context [collect_urls pre_url rest ?s] =>
        destruct (IHrest pre_url s) as [Hf Hl];
        destruct (collect_urls pre_url rest s) as [[r st2] tr2] end.
      cbn in *. split; [constructor; [by eexists | done] | by rewrite Hl].
    + match goal with |- context [collect_urls pre_url rest ?s] =>
        destruct (IHrest pre_url s) as [Hf Hl];
        destruct (collect_urls pre_url rest s) as [[r st2] tr2] end.
      cbn in *. split; [constructor; [by eexists | done] | by rewrite Hl].
    + match goal with |- context [collect_urls pre_url rest ?s] =>
        destruct (IHrest pre_url s) as [Hf Hl];
        destruct (collect_urls pre_url rest s) as [[r st2] tr2] end.
      cbn in *. split; [done | by rewrite Hl].
    + destruct (IHep (pre_url +:+ "/" +:+ url) st) as [Hf1 Hl1].
      pose proof (collect_urls_state d (pre_url +:+ "/" +:+ url) st) as Hst.
      destruct (collect_urls (pre_url +:+ "/" +:+ url) d st)
        as [[r1 st1] tr1].
      cbn [fst snd] in *. injection Hst as -> ->.
      match goal with |- context [collect_urls pre_url rest ?s] =>
        destruct (IHrest pre_url s) as [Hf Hl];
        destruct (collect_urls pre_url rest s) as [[r st2] tr2] end.
      cbn [fst snd] in *. split.
      * by apply Forall_app.
      * by rewrite length_app, Hl1, Hl.
Qed.

End RouteCollectionMore.

(** ** Properties of the start-up functions *)

Section StartupProperties.

Context {World : Type}.
Variable import_class : string -> result (middleware_class World).
Variable run_path : string -> run_path_result World.
Implicit Types (s : settings) (st : state World).
Implicit Types (entries : list (string * list (string * pyval))).
Implicit Types (middlewares : list (middleware World)) (db : string).

Lemma check_urls_state {S} s (st : S) : (check_urls run_path s st).1.2 = st.
Proof.
  unfold check_urls.
  destruct (URLs s) as [urls_path|]; [|reflexivity].
  destruct (run_path urls_path) as [[| |msg]|globals]; try reflexivity.
  by destruct (globals !! "urls") as [[| |h|d]|].
Qed.

(** X16. [check_urls] has three outcomes and no other: it returns the
    dictionary that the urls file binds to [urls], having logged
    nothing; or it returns [None], having logged exactly one critical
    message (no [URLs] setting, file not found, no [urls] in the file,
    [urls] not a dictionary); or an exception of [run_path] other than
    [FileNotFoundError] and [KeyError] goes through, with nothing
    logged. In no case does it change [config]. *)
Theorem check_urls_outcomes s st :
  match check_urls run_path s st with
  | (Ok (Some urls_dict), st', tr) =>
      st' = st /\ tr = []
      /\ exists urls_path globals,
           URLs s = Some urls_path
           /\ run_path urls_path = RunPathGlobals globals
           /\ globals !! "urls" = Some (EpDict urls_dict)
  | (Ok None, st', tr) =>
      st' = st /\ exists msg, tr = [EvLog CRITICAL msg]
  | (Raise e, st', tr) =>
      st' = st /\ tr = []
      /\ exists urls_path msg,
           URLs s = Some urls_path
           /\ run_path urls_path = RunPathRaises (OtherError msg)
           /\ e = OtherExc msg
  end.
Proof.
  unfold check_urls.
  destruct (URLs s) as [urls_path|]; [|by split; [|eexists]].
  destruct (run_path urls_path) as [[| |msg]|globals] eqn:Hrun.
  - by split; [|eexists].
  - by split; [|eexists].
  - split_and!; [done | done | by eexists _, _].
  - destruct (globals !! "urls") as [[| |h|d]|] eqn:Hurls;
      try (by split; [|eexists]).
    split_and!; [done | done | by eexists _, _].
Qed.

(** X17. When [check_urls] yields no route ([None], or an empty
    dictionary), start-up goes on: lines 130-131 of [load_configs] return
    normally and leave [config] as it was, so that with a route table
    that was empty every request is answered with the 404. *)
Theorem urls_not_loaded_all_404 s st :
  ((check_urls run_path s st).1.1 = Ok None
   \/ (check_urls run_path s st).1.1 = Ok (Some UNil)) ->
  config_urls st = ∅ ->
  (load_configs_urls run_path s st).1 = (Ok tt, st)
  /\ forall request,
       run request (load_configs_urls run_path s st).1.2
       = (Ok tt, st,
          [EvMonitoringBefore request;
           EvHttpResponse status.HTTP_404_NOT_FOUND None (Some true)]).
Proof.
  intros Hcheck Hempty.
  assert (Hload : (load_configs_urls run_path s st).1 = (Ok tt, st)).
  { unfold load_configs_urls, bind.
    pose proof (check_urls_state s st) as Hst.
    destruct (check_urls run_path s st) as [[r st1] tr1].
    cbn [fst snd] in *. subst st1.
    by destruct Hcheck as [-> | ->]. }
  split; [exact Hload|].
  intros request. rewrite Hload. cbn [snd].
  rewrite run_eq. cbv zeta. rewrite find_endpoint_lookup, Hempty.
  by rewrite lookup_empty.
Qed.

(** What one turn of the loop of [load_middlewares] does once
    [config['db_engine']] is settled. *)
Definition load_step (path : string) (data : list (string * pyval))
    entries middlewares db : result (list (middleware World)) * string
                             * list event :=
  match import_class path with
  | Raise e => (Raise e, db, [])
  | Ok cls =>
      if issubclass_BaseMiddleware cls then
        match instantiate cls data with
        | Ok middleware =>
            load_middlewares_loop import_class entries
              (middlewares ++ [middleware]) db
        | Raise e => (Raise e, db, [])
        end
      else
        match load_middlewares_loop import_class entries middlewares db with
        | (r, db2, tr2) =>
            (r, db2,
             EvLog CRITICAL (class_repr cls
                             +:+ " is not a sub class of BaseMiddleware.")
               :: tr2)
        end
  end.

Lemma load_middlewares_loop_cons path data entries middlewares db :
  load_middlewares_loop import_class ((path, data) :: entries) middlewares db
  = match str_find path "panther.middlewares.db.Middleware" with
    | Some _ =>
        match getitem data "url" with
        | Some (PStr url) =>
            load_step path data entries middlewares (split_head colon url)
        | Some v =>
            (Raise (OtherExc ("'" +:+ type_name v
                              +:+ "' object has no attribute 'split'")),
             db, [])
        | None => (Raise (OtherExc "'url'"), db, [])
        end
    | None => load_step path data entries middlewares db
    end.
Proof.
  cbn [load_middlewares_loop]. unfold load_step.
  generalize (load_middlewares_loop import_class entries). intros loop.
  unfold bind, lift, modify, raise, ret, logger_critical, emit.
  destruct (str_find path _); [destruct (getitem data "url") as [[]|]|];
    cbn; try reflexivity;
    destruct (import_class path) as [cls|e]; cbn; try reflexivity;
    destruct (issubclass_BaseMiddleware cls); cbn;
    try (destruct (instantiate cls data) as [m|e]; cbn; try reflexivity);
    by destruct (loop _ _) as [[r db2] tr2].
Qed.

Abbreviation db_marker :=
  "panther.middlewares.db.Middleware" (only parsing).

(** A turn of the loop that does not raise: the entry gave a middleware
    or a critical log entry, and [config['db_engine']] was set exactly
    when the path of the entry names the database middleware. *)
Lemma load_middlewares_loop_cons_ok path data entries middlewares db l db' tr :
  load_middlewares_loop import_class ((path, data) :: entries) middlewares db
    = (Ok l, db', tr) ->
  exists middlewares1 db1 tr1,
    load_middlewares_loop import_class entries middlewares1 db1
      = (Ok l, db', tr1)
    /\ ((middlewares1 = middlewares
         /\ exists msg, tr = EvLog CRITICAL msg :: tr1)
        \/ (exists m, middlewares1 = middlewares ++ [m]) /\ tr = tr1)
    /\ match str_find path db_marker with
       | Some _ => exists url, getitem data "url" = Some (PStr url)
                               /\ db1 = split_head colon url
       | None => db1 = db
       end.
Proof.
  rewrite load_middlewares_loop_cons.
  assert (Hstep : forall db1,
            load_step path data entries middlewares db1 = (Ok l, db', tr) ->
            exists middlewares1 tr1,
              load_middlewares_loop import_class entries middlewares1 db1
                = (Ok l, db', tr1)
              /\ ((middlewares1 = middlewares
                   /\ exists msg, tr = EvLog CRITICAL msg :: tr1)
                  \/ (exists m, middlewares1 = middlewares ++ [m])
                     /\ tr = tr1)).
  { intros db1. unfold load_step.
    destruct (import_class path) as [cls|e]; [|intros [=]].
    destruct (issubclass_BaseMiddleware cls).
    - destruct (instantiate cls data) as [m|e]; [|intros [=]].
      intros Hrest. eexists _, _. split; [exact Hrest|].
      right. split; [by eexists | done].
    - destruct (load_middlewares_loop import_class entries middlewares db1)
        as [[r db2] tr2] eqn:Hrest.
      intros [= -> -> <-]. eexists _, _. split; [exact Hrest|].
      left. split; [done | by eexists]. }
  destruct (str_find path db_marker) as [i|].
  - destruct (getitem data "url") as [[| | |url| |]|];
      try (intros [=]; fail).
    intros Hs. destruct (Hstep _ Hs) as (middlewares1 & tr1 & Hrest & Hcase).
    eexists _, _, _. split_and!; [exact Hrest | exact Hcase | by eexists].
  - intros Hs. destruct (Hstep _ Hs) as (middlewares1 & tr1 & Hrest & Hcase).
    by eexists _, _, _.
Qed.



Lemma load_middlewares_loop_db_frame entries :
  (forall path data, (path, data) ∈ entries ->
                     str_find path db_marker = None) ->
  forall middlewares db,
    (load_middlewares_loop import_class entries middlewares db).1.2 = db.
Proof.
  induction entries as [|[path data] entries IH];
    intros Hnone middlewares db; [done|].
  rewrite load_middlewares_loop_cons, (Hnone path data) by (by left).
  assert (IH' : forall middlewares db,
            (load_middlewares_loop import_class entries middlewares db).1.2
            = db).
  { apply IH. intros p d Hin. apply (Hnone p d). by right. }
  unfold load_step. destruct (import_class path) as [cls|e]; [|done].
  destruct (issubclass_BaseMiddleware cls).
  - destruct (instantiate cls data) as [m|e]; [apply IH' | done].
  - specialize (IH' middlewares db).
    by destruct (load_middlewares_loop import_class entries middlewares db)
      as [[r db2] tr2].
Qed.

(** X19. [config['db_engine']] is written for the database middleware
    only: when no entry has a path that contains
    ['panther.middlewares.db.Middleware'], [load_middlewares] leaves
    [config['db_engine']] as it was, whether it returns or raises. *)
Theorem load_middlewares_db_engine_frame s db :
  (forall path data,
     (path, data) ∈ (match Middlewares s with Some es => es | None => [] end)
     -> str_find path db_marker = None) ->
  (load_middlewares import_class s db).1.2 = db.
Proof. intros Hnone. by apply load_middlewares_loop_db_frame. Qed.

(** The list built so far is a prefix of the result and has no other
    influence. *)
Lemma load_middlewares_loop_acc entries : forall middlewares db,
  load_middlewares_loop import_class entries middlewares db
  = match load_middlewares_loop import_class entries [] db with
    | (Ok l, db', tr) => (Ok (middlewares ++ l), db', tr)
    | (Raise e, db', tr) => (Raise e, db', tr)
    end.
Proof.
  induction entries as [|[path data] entries IH]; intros middlewares db.
  - cbn. by rewrite app_nil_r.
  - rewrite !load_middlewares_loop_cons.
    assert (Hstep : forall db1,
              load_step path data entries middlewares db1
              = match load_step path data entries [] db1 with
                | (Ok l, db', tr) => (Ok (middlewares ++ l), db', tr)
                | (Raise e, db', tr) => (Raise e, db', tr)
                end).
    { intros db1. unfold load_step.
      destruct (import_class path) as [cls|e]; [|done].
      destruct (issubclass_BaseMiddleware cls).
      - destruct (instantiate cls data) as [m|e]; [|done].
        rewrite (IH (middlewares ++ [m])), (IH ([] ++ [m])).
        destruct (load_middlewares_loop import_class entries [] db1)
          as [[[l|e] db2] tr2]; [|done].
        by rewrite <- app_assoc.
      - rewrite (IH middlewares).
        by destruct (load_middlewares_loop import_class entries [] db1)
          as [[[l|e] db2] tr2]. }
    destruct (str_find path db_marker) as [i|]; [|apply Hstep].
    destruct (getitem data "url") as [[| | |url| |]|];
      first [done | apply Hstep].
Qed.

Lemma load_middlewares_loop_app entries1 : forall entries2 middlewares db,
  load_middlewares_loop import_class (entries1 ++ entries2) middlewares db
  = match load_middlewares_loop import_class entries1 middlewares db with
    | (Ok middlewares1, db1, tr1) =>
        match
          load_middlewares_loop import_class entries2 middlewares1 db1
        with
        | (r, db2, tr2) => (r, db2, tr1 ++ tr2)
        end
    | (Raise e, db1, tr1) => (Raise e, db1, tr1)
    end.
Proof.
  induction entries1 as [|[path data] entries1 IH];
    intros entries2 middlewares db.
  - cbn. by destruct (load_middlewares_loop _ entries2 middlewares db)
      as [[r db2] tr2].
  - cbn [app]. rewrite !load_middlewares_loop_cons.
    assert (Hstep : forall db1,
              load_step path data (entries1 ++ entries2) middlewares db1
              = match load_step path data entries1 middlewares db1 with
                | (Ok middlewares1, db2, tr1) =>
                    match
                      load_middlewares_loop import_class entries2
                                            middlewares1 db2
                    with
                    | (r, db3, tr2) => (r, db3, tr1 ++ tr2)
                    end
                | (Raise e, db2, tr1) => (Raise e, db2, tr1)
                end).
    { intros db1. unfold load_step.
      destruct (import_class path) as [cls|e]; [|done].
      destruct (issubclass_BaseMiddleware cls).
      - destruct (instantiate cls data) as [m|e]; [apply IH | done].
      - rewrite IH.
        destruct (load_middlewares_loop import_class entries1 middlewares db1)
          as [[[middlewares1|e] db2] tr1]; [|done].
        by destruct (load_middlewares_loop import_class entries2
                       middlewares1 db2) as [[r db3] tr2]. }
    destruct (str_find path db_marker) as [i|]; [|apply Hstep].
    destruct (getitem data "url") as [[| | |url| |]|];
      first [done | apply Hstep].
Qed.

(** X20. The middlewares come out in the order of the settings, and
    loading composes: when a first list of entries loads to [l1] and a
    second one, started from the [config['db_engine']] the first left,
    loads to [l2], the two lists of entries one after the other load to
    [l1 ++ l2], with the log entries of the first followed by those of
    the second. *)
Theorem load_middlewares_app s1 s2 s entries1 entries2 db
    l1 db1 tr1 l2 db2 tr2 :
  Middlewares s1 = Some entries1 ->
  Middlewares s2 = Some entries2 ->
  Middlewares s = Some (entries1 ++ entries2) ->
  load_middlewares import_class s1 db = (Ok l1, db1, tr1) ->
  load_middlewares import_class s2 db1 = (Ok l2, db2, tr2) ->
  load_middlewares import_class s db = (Ok (l1 ++ l2), db2, tr1 ++ tr2).
Proof.
  unfold load_middlewares. intros -> -> -> H1 H2.
  by rewrite load_middlewares_loop_app, H1, load_middlewares_loop_acc, H2.
Qed.

(** X21. [config['db_engine']] is what comes before the first [':'] in
    the [url] of the last entry whose path contains
    ['panther.middlewares.db.Middleware']: a load that returns leaves it
    so, whether or not the class of that entry was accepted as a
    middleware. *)
Theorem load_middlewares_db_engine_last s db entries1 path data url
    entries2 i l db' tr :
  Middlewares s = Some (entries1 ++ (path, data) :: entries2) ->
  str_find path db_marker = Some i ->
  getitem data "url" = Some (PStr url) ->
  (forall p d, (p, d) ∈ entries2 -> str_find p db_marker = None) ->
  load_middlewares import_class s db = (Ok l, db', tr) ->
  db' = split_head colon url.
Proof.
  unfold load_middlewares. intros -> Hfind Hurl Hnone.
  rewrite load_middlewares_loop_app.
  destruct (load_middlewares_loop import_class entries1 [] db)
    as [[[middlewares1|e] db1] tr1]; [|intros [=]].
  destruct (load_middlewares_loop import_class ((path, data) :: entries2)
              middlewares1 db1) as [[r db2] tr2] eqn:Hrest.
  intros [= -> -> <-].
  apply load_middlewares_loop_cons_ok in Hrest
    as (middlewares2 & db3 & tr3 & Hrest & _ & Hdb).
  rewrite Hfind, Hurl in Hdb. destruct Hdb as (url' & [= <-] & ->).
  pose proof (load_middlewares_loop_db_frame entries2 Hnone middlewares2
                (split_head colon url)) as Hframe.
  by rewrite Hrest in Hframe.
Qed.

(** X22. An entry for the database middleware that has no [url] among
    its arguments aborts the load: [data['url']] raises [KeyError] before
    the class of the entry is imported, the entries after it are not
    looked at, and no list of middlewares is returned. *)
Theorem load_middlewares_db_entry_without_url s1 s db entries1 path data
    entries2 i middlewares1 db1 tr1 :
  Middlewares s1 = Some entries1 ->
  Middlewares s = Some (entries1 ++ (path, data) :: entries2) ->
  str_find path db_marker = Some i ->
  getitem data "url" = None ->
  load_middlewares import_class s1 db = (Ok middlewares1, db1, tr1) ->
  load_middlewares import_class s db = (Raise (OtherExc "'url'"), db1, tr1).
Proof.
  unfold load_middlewares. intros -> -> Hfind Hurl Hfirst.
  rewrite load_middlewares_loop_app, Hfirst, load_middlewares_loop_cons.
  by rewrite Hfind, Hurl, app_nil_r.
Qed.

End StartupProperties.

(** ** The further properties on the samples *)

Lemma run_not_found_witness :
  run (Samples.get "/nope") (Samples.st0 [Samples.A])
  = (Ok tt, Samples.st0 [Samples.A],
     [EvMonitoringBefore (Samples.get "/nope");
      EvHttpResponse 404 None (Some true)]).
Proof. apply run_not_found. left. vm_compute. reflexivity. Defined.

Lemma before_error_short_circuits_witness :
  before_names
    (run (Samples.get "/health")
         (Samples.st0 [Samples.A; Samples.BeforeCrash; Samples.B])).2
  = ["A"; "BeforeCrash"].
Proof.
  refine (proj1 (before_error_short_circuits (Samples.get "/health")
                   (Samples.st0 [Samples.A; Samples.BeforeCrash; Samples.B])
                   [Samples.A] Samples.BeforeCrash [Samples.B]
                   (Samples.get "/health")
                   (State [Samples.A; Samples.BeforeCrash; Samples.B]
                          {[ "/health" := Samples.ok_handler ]} 1%nat)
                   [EvBefore "A" (Samples.get "/health")]
                   (OtherExc "boom") 2%nat _ _ _ _)).
  - vm_compute. reflexivity.
  - reflexivity.
  - vm_compute. reflexivity.
  - reflexivity.
Defined.

Lemma served_request_hook_order_witness :
  after_names
    (run (Samples.get "/health") (Samples.st0 [Samples.A; Samples.B])).2
  = ["B"; "A"].
Proof.
  refine (proj1 (served_request_hook_order (Samples.get "/health")
                   (Samples.st0 [Samples.A; Samples.B]) _)).
  vm_compute. reflexivity.
Defined.

Lemma run_logs_only_unhandled_witness :
  exists st1 tr1,
    run (Samples.get "/health") (Samples.st0 [Samples.BeforeCrash])
    = (Ok tt, st1,
       EvMonitoringBefore (Samples.get "/health")
         :: tr1 ++ [EvLog CRITICAL "boom";
                    EvHttpResponse 500 None (Some true)]).
Proof.
  destruct (run_logs_only_unhandled (Samples.get "/health")
              (Samples.st0 [Samples.BeforeCrash]) CRITICAL "boom")
    as (_ & st1 & tr1 & _ & Hrun).
  - vm_compute. do 2 right. left.
  - by exists st1, tr1.
Defined.

Lemma all_served_parity_witness :
  config_middlewares
    (serve [Samples.get "/health"; Samples.get "/health";
            Samples.get "/health"]
           (Samples.st0 [Samples.A; Samples.B]))
  = [Samples.B; Samples.A].
Proof.
  refine (all_served_parity
            [Samples.get "/health"; Samples.get "/health";
             Samples.get "/health"]
            (Samples.st0 [Samples.A; Samples.B]) _).
  vm_compute. reflexivity.
Defined.

(** No middleware, and an endpoint that raises
    [APIException(409, 'conflict')]: the response is
    [(409, {'detail': 'conflict'})]. *)
Lemma run_without_middlewares_witness :
  run (Samples.get "/users") MoreSamples.st_conflict
  = (Ok tt, State [] (config_urls MoreSamples.st_conflict) 1%nat,
     [EvMonitoringBefore (Samples.get "/users");
      EvEndpoint (Samples.get "/users");
      EvHttpResponse 409 (Some (PDict [("detail", PStr "conflict")])) None]).
Proof.
  refine (run_without_middlewares (Samples.get "/users")
            MoreSamples.st_conflict MoreSamples.conflict_handler _ _).
  - reflexivity.
  - vm_compute. reflexivity.
Defined.

(** ['api' -> 'v1' -> 'users'] is served at ['/api/v1users']. *)
Lemma nested_leaf_resolves_witness :
  find_endpoint
    (config_urls
       (collect_urls "" MoreSamples.nested_urls Samples.empty_state).1.2)
    "/api/v1users"
  = Samples.ok_handler.
Proof.
  refine (nested_leaf_resolves MoreSamples.nested_urls ["api"; "v1"] "users"
            Samples.ok_handler Samples.empty_state _ _).
  - eapply leaf_in_group; [by left|].
    eapply leaf_in_group; [by left|].
    apply leaf_here; [by left | reflexivity].
  - intros h' Hin. vm_compute in Hin.
    apply elem_of_cons in Hin as [[= ->]|Hin]; [reflexivity|].
    apply list_elem_of_singleton in Hin. discriminate.
Defined.

Lemma collect_urls_only_leaves_witness :
  isinstance_EpDict
    (find_endpoint
       (config_urls
          (collect_urls "" MoreSamples.nested_urls Samples.empty_state).1.2)
       "/api")
  = false.
Proof.
  refine (proj2 (collect_urls_only_leaves "" MoreSamples.nested_urls
                   Samples.empty_state) _ "/api").
  intros k v Hk. cbn in Hk. by rewrite lookup_empty in Hk.
Defined.

(** ['a' -> 'b'] and ['/ab'] both flatten to ['/ab']: the second one,
    met last, is the route. *)
Lemma collect_urls_last_wins_witness :
  config_urls
    (collect_urls "" MoreSamples.colliding_urls Samples.empty_state).1.2
    !! "/ab"
  = Some Samples.ok_handler.
Proof.
  refine (collect_urls_last_wins "" MoreSamples.colliding_urls
            Samples.empty_state [("/ab", Samples.crash_handler)] "/ab"
            Samples.ok_handler [] _ _).
  - reflexivity.
  - intros Hin. inversion Hin.
Defined.

Lemma collect_urls_frame_witness :
  config_urls
    (collect_urls "" Samples.users_urls (Samples.st0 [])).1.2 !! "/health"
  = Some Samples.ok_handler.
Proof.
  destruct (collect_urls_frame "" Samples.users_urls (Samples.st0 [])
              "/health") as (_ & Hkeep & _).
  - vm_compute. intros Hin.
    apply list_elem_of_singleton in Hin. discriminate.
  - rewrite Hkeep. vm_compute. reflexivity.
Defined.

(** No [URLs] setting: start-up goes on and every request gets the
    404. *)
Lemma urls_not_loaded_all_404_witness :
  run (Samples.get "/health")
      (load_configs_urls MoreSamples.run_path MoreSamples.no_urls_settings
                         Samples.empty_state).1.2
  = (Ok tt, Samples.empty_state,
     [EvMonitoringBefore (Samples.get "/health");
      EvHttpResponse 404 None (Some true)]).
Proof.
  refine (proj2 (urls_not_loaded_all_404 MoreSamples.run_path
                   MoreSamples.no_urls_settings Samples.empty_state _ _)
                (Samples.get "/health")).
  - left. reflexivity.
  - reflexivity.
Defined.


Lemma load_middlewares_db_engine_frame_witness :
  (load_middlewares MoreSamples.import_class
     (Settings None (Some [("app.Auth", []); ("app.Missing", [])]))
     "sqlite").1.2
  = "sqlite".
Proof.
  apply load_middlewares_db_engine_frame.
  intros path data Hin. cbn in Hin.
  repeat (apply elem_of_cons in Hin as [[= -> ->]|Hin];
          [vm_compute; reflexivity|]).
  inversion Hin.
Defined.

Lemma load_middlewares_app_witness :
  load_middlewares MoreSamples.import_class
    (Settings None (Some ([("app.Auth", [])] ++ [("app.Log", [])]))) ""
  = (Ok ([Samples.A] ++ [Samples.B]), "", [] ++ []).
Proof.
  refine (load_middlewares_app MoreSamples.import_class
            (Settings None (Some [("app.Auth", [])]))
            (Settings None (Some [("app.Log", [])]))
            (Settings None (Some ([("app.Auth", [])] ++ [("app.Log", [])])))
            _ _ "" _ "" _ _ _ _ eq_refl eq_refl eq_refl _ _).
  - vm_compute. reflexivity.
  - vm_compute. reflexivity.
Defined.

(** The database middleware with [url='mongodb://127.0.0.1:27017/db']:
    [config['db_engine']] is ['mongodb']. *)
Lemma load_middlewares_db_engine_last_witness :
  (load_middlewares MoreSamples.import_class
     (Settings None
        (Some ([("app.Auth", [])]
               ++ (MoreSamples.db_path, MoreSamples.mongo)
                  :: [("app.Log", [])]))) "").1.2
  = "mongodb".
Proof.
  refine (load_middlewares_db_engine_last MoreSamples.import_class
            (Settings None
               (Some ([("app.Auth", [])]
                      ++ (MoreSamples.db_path, MoreSamples.mongo)
                         :: [("app.Log", [])])))
            "" [("app.Auth", [])] MoreSamples.db_path MoreSamples.mongo
            "mongodb://127.0.0.1:27017/db" [("app.Log", [])] 0%nat
            [Samples.A; Samples.C; Samples.B] _ [] eq_refl _ _ _ _).
  - vm_compute. reflexivity.
  - reflexivity.
  - intros p d Hin. apply list_elem_of_singleton in Hin.
    injection Hin as -> ->. vm_compute. reflexivity.
  - vm_compute. reflexivity.
Defined.

Lemma load_middlewares_db_entry_without_url_witness :
  load_middlewares MoreSamples.import_class
    (Settings None
       (Some ([("app.Auth", [])]
              ++ (MoreSamples.db_path, []) :: [("app.Log", [])]))) ""
  = (Raise (OtherExc "'url'"), "", []).
Proof.
  refine (load_middlewares_db_entry_without_url MoreSamples.import_class
            (Settings None (Some [("app.Auth", [])]))
            (Settings None
               (Some ([("app.Auth", [])]
                      ++ (MoreSamples.db_path, []) :: [("app.Log", [])])))
            ""
            [("app.Auth", [])] MoreSamples.db_path [] [("app.Log", [])]
            0%nat [Samples.A] "" [] eq_refl eq_refl _ _ _).
  - vm_compute. reflexivity.
  - reflexivity.
  - vm_compute. reflexivity.
Defined.

(** ** The corrected claims on the samples *)

(** [Deny] refuses the request in its before-hook. With the chain
    [A, Deny] the after-hooks of [Deny] and [A] run on the translated
    refusal, which is then emitted. With the chain [Deny, A], as a
    request finds it after another one left it reversed, the before-hook
    of [A] is not called and its after-hook is the one that receives the
    translation. *)
Lemma before_api_error_runs_after_pass_witness :
  ((run (Samples.get "/health") (Samples.st0 [Samples.A; Samples.Deny])).2
   = EvMonitoringBefore (Samples.get "/health")
       :: ([EvBefore "A" (Samples.get "/health")]
           ++ [EvBefore "Deny" (Samples.get "/health")])
          ++ [EvAfter "Deny" (handle_exceptions Samples.forbidden);
              EvAfter "A" (handle_exceptions Samples.forbidden)]
          ++ [EvHttpResponse 403 (Some (PDict [("detail", PStr "forbidden")]))
                None])
  /\ before_names
       (run (Samples.get "/health")
            (Samples.st0 [Samples.Deny; Samples.A])).2 = ["Deny"]
  /\ EvAfter "A" (handle_exceptions Samples.forbidden)
     ∈ (run (Samples.get "/health")
            (Samples.st0 [Samples.Deny; Samples.A])).2.
Proof.
  split.
  - destruct (before_api_error_runs_after_pass (Samples.get "/health")
                (Samples.st0 [Samples.A; Samples.Deny])
                [Samples.A] Samples.Deny [] (Samples.get "/health")
                (State [Samples.A; Samples.Deny]
                       {[ "/health" := Samples.ok_handler ]} 1%nat)
                [EvBefore "A" (Samples.get "/health")]
                Samples.forbidden 2%nat)
      as (_ & _ & _ & _ & Hrun).
    + vm_compute. reflexivity.
    + reflexivity.
    + vm_compute. reflexivity.
    + reflexivity.
    + rewrite (Hrun (handle_exceptions Samples.forbidden)
                 (State [Samples.Deny; Samples.A]
                        {[ "/health" := Samples.ok_handler ]} 4%nat)
                 [EvAfter "Deny" (handle_exceptions Samples.forbidden);
                  EvAfter "A" (handle_exceptions Samples.forbidden)]).
      * reflexivity.
      * vm_compute. reflexivity.
  - destruct (before_api_error_runs_after_pass (Samples.get "/health")
                (Samples.st0 [Samples.Deny; Samples.A])
                [] Samples.Deny [Samples.A] (Samples.get "/health")
                (Samples.st0 [Samples.Deny; Samples.A]) []
                Samples.forbidden 1%nat)
      as (Hbefore & _ & _ & Hafter & _).
    + vm_compute. reflexivity.
    + reflexivity.
    + reflexivity.
    + reflexivity.
    + split; [exact Hbefore|]. apply (Hafter Samples.A). reflexivity.
Defined.


(** The group [users] with the leaf [list] registers [/userslist], and
    [/users/list] is not a route. *)
Lemma collect_urls_group_leaf_witness :
  let table :=
    config_urls (collect_urls "" Samples.users_urls Samples.empty_state).1.2
  in
  table !! "/userslist" = Some Samples.ok_handler
  /\ table !! "/users/list" = None.
Proof.
  split.
  - pose proof (collect_urls_group_leaf "" Samples.users_urls "users"
                  (UCons "list" Samples.ok_handler UNil) "list"
                  Samples.ok_handler Samples.empty_state) as H.
    cbv zeta in H.
    destruct H as (_ & H).
    + left.
    + left.
    + reflexivity.
    + apply H. apply leaves_agree_iff. intros h' Hh'.
      apply list_elem_of_singleton in Hh'. by injection Hh'.
  - vm_compute. reflexivity.
Defined.

(** The claim C10 as it is worded fails: in
    [{'a': {'b': crash_handler}, '/ab': ok_handler}] the leaf ['b'] of the
    group ['a'] flattens to ['/ab'], and the endpoint registered under
    ['/ab'] is the one of the leaf met later. *)
Lemma group_leaf_overwritten_by_later_leaf :
  ~ (forall (urls : urls_dict nat) g d u h st,
       (g, EpDict d) ∈ items urls ->
       (u, h) ∈ items d ->
       isinstance_EpDict h = false ->
       config_urls (collect_urls "" urls st).1.2 !! ("/" +:+ g +:+ u)
       = Some h).
Proof.
  intros H.
  specialize (H MoreSamples.colliding_urls "a"
                (UCons "b" Samples.crash_handler UNil) "b"
                Samples.crash_handler Samples.empty_state).
  assert (Hab : config_urls
                  (collect_urls "" MoreSamples.colliding_urls
                                Samples.empty_state).1.2 !! "/ab"
                = Some Samples.ok_handler) by (vm_compute; reflexivity).
  change ("/" +:+ "a" +:+ "b") with "/ab" in H.
  rewrite Hab in H.
  assert (Hneq : Some Samples.ok_handler <> Some Samples.crash_handler).
  { unfold Samples.ok_handler, Samples.crash_handler. intros [= Heq].
    apply (f_equal (fun f => (f (Samples.get "/ab") 0%nat).1)) in Heq.
    discriminate. }
  apply Hneq, H; [by left | by left | reflexivity].
Qed.

(** A before-hook that is cancelled: the request ends there, with no
    response. *)
Lemma base_exception_escapes_run_witness :
  run (Samples.get "/health")
      (Samples.st0 [Samples.A; MoreSamples.Cancelled; Samples.B])
  = (Raise (BaseExc "CancelledError"),
     State [Samples.A; MoreSamples.Cancelled; Samples.B]
           {[ "/health" := Samples.ok_handler ]} 2%nat,
     EvMonitoringBefore (Samples.get "/health")
       :: [EvBefore "A" (Samples.get "/health");
           EvBefore "Cancelled" (Samples.get "/health")]).
Proof.
  refine (proj1 (base_exception_escapes_run (Samples.get "/health")
                   (Samples.st0 [Samples.A; MoreSamples.Cancelled; Samples.B])
                   "CancelledError" _ _ _ _)).
  - vm_compute. reflexivity.
  - left. vm_compute. reflexivity.
Defined.
